(** * The frontend logger ([frontend/lib/logger.ts]) as a state machine

    The [Logger] class keeps three bounded buffers: the in-memory history,
    the entries persisted under one localStorage key, and the queue of
    entries waiting to be posted to the backend.  This development embeds
    the class method by method and proves the properties of those buffers.

    Conventions of the embedding:
    - a method is a computation in the monad [M]: it reads and writes the
      fields of the logger together with the parts of the browser it
      touches (the localStorage key, the console, the requests in flight,
      the files offered for download) and it either returns or throws;
    - [try { ... } catch] is [try_catch]; the ambient globals the class
      tests for ([window], [navigator]) and the failures of localStorage are
      read from a [Host] record;
    - a JSON text is represented by the array it was written from, and
      [JSON.parse] gives back what survives the round trip;
    - the payload [data?: unknown] is an [Error] instance or any other
      value, each with what [JSON.stringify] makes of it: a text, nothing,
      or an exception; numbers passed as [limit] are integers;
    - [flushPendingLogs] is [async]: the code up to [await fetch], with the
      [catch] of what throws before it, is [flushPendingLogs], the code
      after it is [flushPendingLogs_resume], and the batches whose [fetch]
      has not settled are kept in [inflight]. *)

From Stdlib Require Import ZArith Lia Ascii.
From stdpp Require Import base option list strings pretty.

Open Scope string_scope.
Open Scope list_scope.

(** ** Entries *)

Inductive LogLevel := DEBUG | INFO | WARN | ERROR.

#[global] Instance LogLevel_eq_dec : EqDecision LogLevel.
Proof. solve_decision. Defined.

(** What [JSON.stringify] makes of a value. *)
Inductive Serial :=
| Rejects                 (* it throws: a circular object, a BigInt *)
| Omits                   (* it leaves the key out: a function, a symbol *)
| Writes (json : string). (* it writes this text *)

#[global] Instance Serial_eq_dec : EqDecision Serial.
Proof. solve_decision. Defined.

(** The values a caller passes as [data].  An [Error] instance has a
    message, a stack when the engine gave it one, and enumerable own
    properties: [own] is their JSON text, [{}] when there are none, and
    [None] when [JSON.stringify] rejects one of them.  Any other value has
    an enumerable own property [stack] or not, and what [JSON.stringify]
    makes of it. *)
Inductive Payload :=
| PError (msg : string) (errStack : option string) (own : option string)
| PValue (stackProp : option string) (serial : Serial).

#[global] Instance Payload_eq_dec : EqDecision Payload.
Proof. solve_decision. Defined.

Record LogEntry := mkLogEntry {
  level : LogLevel;
  message : string;
  timestamp : string;
  data : option Payload;
  component : option string;
  action : option string;
  userAgent : option string;
  url : option string;
  stack : option string;
}.

#[global] Instance LogEntry_eq_dec : EqDecision LogEntry.
Proof. solve_decision. Defined.

(** ** JavaScript values used by the class *)

(** [Array.prototype.slice(start, end)] on integer arguments: a negative
    index counts from the end, every index is clamped to the array. *)
Definition relIndex (len k : Z) : Z :=
  if (k <? 0)%Z then Z.max (len + k) 0 else Z.min k len.

Definition slice {A} (start : Z) (stop : option Z) (l : list A) : list A :=
  let len := Z.of_nat (length l) in
  let from := relIndex len start in
  let to := match stop with Some e => relIndex len e | None => len end in
  take (Z.to_nat (to - from)) (drop (Z.to_nat from) l).

(** Truthiness of the optional arguments: a string is truthy unless empty,
    a number unless zero. *)
Definition truthy_string (o : option string) : bool :=
  match o with Some s => negb (String.eqb s "") | None => false end.

Definition truthy_number (o : option Z) : bool :=
  match o with Some n => negb (n =? 0)%Z | None => false end.

(** A text handed to [JSON.parse] or made by [JSON.stringify]. *)
Inductive Text :=
| EmptyText                       (* the empty string *)
| BadText                         (* a text [JSON.parse] rejects *)
| JsonText (logs : list LogEntry). (* what [JSON.stringify] writes for the array [logs] *)

(** [JSON.stringify] accepts the entry: its data is missing or is a value
    that does not make it throw. *)
Definition serialisable_payload (p : Payload) : bool :=
  match p with
  | PError _ _ (Some _) => true
  | PError _ _ None => false
  | PValue _ Rejects => false
  | PValue _ _ => true
  end.

Definition serialisable (e : LogEntry) : bool :=
  match data e with
  | Some p => serialisable_payload p
  | None => true
  end.

(** What comes back from the text of an entry.  Of an [Error] only the
    enumerable own properties were written, so it comes back as a plain
    object without the message and the stack; a value that was left out
    comes back as [undefined]; the other fields are strings, left out when
    [undefined].  (A value that [JSON.stringify] rejects is in no text.) *)
Definition jsonPayload (p : Payload) : option Payload :=
  match p with
  | PError _ _ (Some own) => Some (PValue None (Writes own))
  | PValue sp (Writes t) => Some (PValue sp (Writes t))
  | PError _ _ None | PValue _ Rejects | PValue _ Omits => None
  end.

Definition jsonEntry (e : LogEntry) : LogEntry :=
  {| level := level e; message := message e; timestamp := timestamp e;
     data := match data e with Some p => jsonPayload p | None => None end;
     component := component e; action := action e;
     userAgent := userAgent e; url := url e; stack := stack e |}.

(** ** The host and the state *)

Record Host := {
  hasWindow : bool;                     (* [typeof window !== 'undefined'] *)
  navigator : option string;            (* [navigator.userAgent]; [None]: no [navigator] *)
  href : string;                        (* [window.location.href] *)
  getItemThrows : bool;                 (* localStorage cannot be read *)
  setItemThrows : Text -> bool;          (* the write is refused (quota, access) *)
  removeItemThrows : bool;
  hasFetch : bool;                      (* [fetch] is defined *)
}.

Inductive Exn := SyntaxError | DOMException | TypeError | ReferenceError.

Record ConsoleCall := { channel : LogLevel; line : string }.

Record Logger := {
  isDevelopment : bool;
  logHistory : list LogEntry;
  pendingLogs : list LogEntry;
  sendLogsTimer : bool;                 (* the interval timer is installed *)
  unloadListener : bool;                (* the [beforeunload] listener is installed *)
  (* the browser *)
  localStorage : option Text;           (* the item under [localStorageKey] *)
  console : list ConsoleCall;
  inflight : list (list LogEntry);      (* bodies of the requests not yet settled *)
  downloads : list (string * Text);     (* files offered for saving *)
}.

Definition maxHistorySize : nat := 100.
Definition maxLocalStorageSize : nat := 500.

Definition set_logHistory (v : list LogEntry) (s : Logger) : Logger :=
  {| isDevelopment := isDevelopment s; logHistory := v;
     pendingLogs := pendingLogs s; sendLogsTimer := sendLogsTimer s;
     unloadListener := unloadListener s; localStorage := localStorage s;
     console := console s; inflight := inflight s; downloads := downloads s |}.

Definition set_pendingLogs (v : list LogEntry) (s : Logger) : Logger :=
  {| isDevelopment := isDevelopment s; logHistory := logHistory s;
     pendingLogs := v; sendLogsTimer := sendLogsTimer s;
     unloadListener := unloadListener s; localStorage := localStorage s;
     console := console s; inflight := inflight s; downloads := downloads s |}.

Definition set_sendLogsTimer (v : bool) (s : Logger) : Logger :=
  {| isDevelopment := isDevelopment s; logHistory := logHistory s;
     pendingLogs := pendingLogs s; sendLogsTimer := v;
     unloadListener := unloadListener s; localStorage := localStorage s;
     console := console s; inflight := inflight s; downloads := downloads s |}.

Definition set_unloadListener (v : bool) (s : Logger) : Logger :=
  {| isDevelopment := isDevelopment s; logHistory := logHistory s;
     pendingLogs := pendingLogs s; sendLogsTimer := sendLogsTimer s;
     unloadListener := v; localStorage := localStorage s;
     console := console s; inflight := inflight s; downloads := downloads s |}.

Definition set_localStorage (v : option Text) (s : Logger) : Logger :=
  {| isDevelopment := isDevelopment s; logHistory := logHistory s;
     pendingLogs := pendingLogs s; sendLogsTimer := sendLogsTimer s;
     unloadListener := unloadListener s; localStorage := v;
     console := console s; inflight := inflight s; downloads := downloads s |}.

Definition set_console (v : list ConsoleCall) (s : Logger) : Logger :=
  {| isDevelopment := isDevelopment s; logHistory := logHistory s;
     pendingLogs := pendingLogs s; sendLogsTimer := sendLogsTimer s;
     unloadListener := unloadListener s; localStorage := localStorage s;
     console := v; inflight := inflight s; downloads := downloads s |}.

Definition set_inflight (v : list (list LogEntry)) (s : Logger) : Logger :=
  {| isDevelopment := isDevelopment s; logHistory := logHistory s;
     pendingLogs := pendingLogs s; sendLogsTimer := sendLogsTimer s;
     unloadListener := unloadListener s; localStorage := localStorage s;
     console := console s; inflight := v; downloads := downloads s |}.

Definition set_downloads (v : list (string * Text)) (s : Logger) : Logger :=
  {| isDevelopment := isDevelopment s; logHistory := logHistory s;
     pendingLogs := pendingLogs s; sendLogsTimer := sendLogsTimer s;
     unloadListener := unloadListener s; localStorage := localStorage s;
     console := console s; inflight := inflight s; downloads := v |}.

(** ** The monad of methods: state, and exceptions that keep the state *)

Inductive Outcome (A : Type) :=
| Ret (a : A) (s : Logger)
| Thrown (e : Exn) (s : Logger).
Arguments Ret {A} a s.
Arguments Thrown {A} e s.

Definition M (A : Type) : Type := Logger -> Outcome A.

Definition ret {A} (a : A) : M A := fun s => Ret a s.

Definition throw {A} (e : Exn) : M A := fun s => Thrown e s.

Definition bind {A B} (m : M A) (k : A -> M B) : M B :=
  fun s => match m s with
           | Ret a s' => k a s'
           | Thrown e s' => Thrown e s'
           end.

Definition try_catch {A} (body : M A) (handler : Exn -> M A) : M A :=
  fun s => match body s with
           | Ret a s' => Ret a s'
           | Thrown e s' => handler e s'
           end.

Definition get {A} (f : Logger -> A) : M A := fun s => Ret (f s) s.

Definition modify (f : Logger -> Logger) : M unit := fun s => Ret tt (f s).

Notation "'let*' x ':=' m 'in' k" := (bind m (fun x => k))
  (at level 10, x name, m at level 100, k at level 200).
Notation "m >> k" := (bind m (fun _ => k))
  (at level 100, k at level 200, right associativity).

(** The state a computation leaves, returned or thrown. *)
Definition final {A} (o : Outcome A) : Logger :=
  match o with Ret _ s => s | Thrown _ s => s end.

Definition returns {A} (o : Outcome A) : Prop :=
  match o with Ret _ _ => True | Thrown _ _ => False end.

(** ** Host operations *)

Definition localStorage_getItem (h : Host) : M (option Text) :=
  fun s => if getItemThrows h then Thrown DOMException s
           else Ret (localStorage s) s.

Definition localStorage_setItem (h : Host) (t : Text) : M unit :=
  fun s => if setItemThrows h t then Thrown DOMException s
           else Ret tt (set_localStorage (Some t) s).

Definition localStorage_removeItem (h : Host) : M unit :=
  fun s => if removeItemThrows h then Thrown DOMException s
           else Ret tt (set_localStorage None s).

(** [JSON.stringify] of an array of entries throws when it meets a value it
    rejects. *)
Definition JSON_stringify (logs : list LogEntry) : M Text :=
  if forallb serialisable logs then ret (JsonText logs) else throw TypeError.

Definition JSON_parse (t : Text) : M (list LogEntry) :=
  match t with
  | JsonText logs => ret (jsonEntry <$> logs)
  | EmptyText | BadText => throw SyntaxError
  end.

(** [stored ? ... : ...] on the result of [getItem]: [null] and the empty
    string are falsy. *)
Definition truthy_text (o : option Text) : option Text :=
  match o with
  | Some EmptyText | None => None
  | Some t => Some t
  end.

Definition console_call (c : LogLevel) (text : string) : M unit :=
  modify (fun s => set_console (console s ++ [{| channel := c; line := text |}]) s).

Inductive FetchOutcome :=
| Response (ok : bool)  (* the promise resolved; [response.ok] *)
| NetworkError.         (* the promise rejected *)

(** The name [fetch] is looked up before the arguments of the call are
    computed: a host that defines none throws here. *)
Definition fetch_ref (h : Host) : M unit :=
  if hasFetch h then ret tt else throw ReferenceError.

(** The call of [fetch] once its arguments have been computed: the request
    leaves. *)
Definition fetch (body : list LogEntry) : M unit :=
  modify (fun s => set_inflight (inflight s ++ [body]) s).

(** ** The methods of [Logger] *)

Definition getEmoji (lv : LogLevel) : string :=
  match lv with
  | DEBUG => "🔍"
  | INFO => "ℹ️"
  | WARN => "⚠️"
  | ERROR => "❌"
  end.

Definition formatMessage (now : string) (lv : LogLevel) (msg : string)
    (comp act : option string) : string :=
  let prefix :=
    if truthy_string comp then "[" +:+ default "" comp +:+ "]" else "" in
  let actionPrefix :=
    if truthy_string act then "[" +:+ default "" act +:+ "]" else "" in
  getEmoji lv +:+ " " +:+ now +:+ " " +:+ prefix +:+ " " +:+ actionPrefix
    +:+ " " +:+ msg.

Definition enrich (h : Host) (entry : LogEntry) : LogEntry :=
  {| level := level entry; message := message entry;
     timestamp := timestamp entry; data := data entry;
     component := component entry; action := action entry;
     userAgent := navigator h;
     url := if hasWindow h then Some (href h) else None;
     stack := match data entry with
              | Some (PError _ st _) => st
              | _ => None
              end |}.

Definition persistToLocalStorage (h : Host) (entry : LogEntry) : M unit :=
  if negb (hasWindow h) then ret tt else
  try_catch
    (let* stored := localStorage_getItem h in
     let* logs := match truthy_text stored with
                  | Some t => JSON_parse t
                  | None => ret []
                  end in
     let enrichedEntry := enrich h entry in
     let logs := logs ++ [enrichedEntry] in
     let logs := if (maxLocalStorageSize <? length logs)%nat
                 then slice (- Z.of_nat maxLocalStorageSize) None logs
                 else logs in
     let* text := JSON_stringify logs in
     localStorage_setItem h text)
    (fun error => console_call WARN "Failed to persist log to localStorage:").

Definition loadFromLocalStorage (h : Host) : M unit :=
  if negb (hasWindow h) then ret tt else
  try_catch
    (let* stored := localStorage_getItem h in
     match truthy_text stored with
     | Some t =>
         let* logs := JSON_parse t in
         modify (set_logHistory (slice (- Z.of_nat maxHistorySize) None logs))
     | None => ret tt
     end)
    (fun error => console_call WARN "Failed to load logs from localStorage:").

(** The re-queue of the [!response.ok] branch and of the [catch]. *)
Definition requeue (logsToSend : list LogEntry) : M unit :=
  modify (fun s =>
    set_pendingLogs (slice 0 (Some 100%Z) (logsToSend ++ pendingLogs s)) s).

(** [flushPendingLogs] up to its [await]: the queue is copied and cleared,
    then the body is serialised and the request leaves; what throws on the
    way is caught and re-queues at once. *)
Definition flushPendingLogs (h : Host) : M unit :=
  let* pending := get pendingLogs in
  if (length pending =? 0)%nat then ret tt else
  let logsToSend := pending in
  modify (set_pendingLogs []) >>
  try_catch
    (fetch_ref h >>
     let* body := JSON_stringify logsToSend in
     fetch logsToSend)
    (fun error => requeue logsToSend).

(** [flushPendingLogs] after its [await], for the request that carried
    [logsToSend]: both the [!response.ok] branch and the [catch] re-queue. *)
Definition flushPendingLogs_resume (o : FetchOutcome)
    (logsToSend : list LogEntry) : M unit :=
  match o with
  | Response true => ret tt
  | Response false | NetworkError => requeue logsToSend
  end.

Definition addToPendingLogs (h : Host) (entry : LogEntry) : M unit :=
  modify (fun s => set_pendingLogs (pendingLogs s ++ [entry]) s) >>
  let* pending := get pendingLogs in
  if (10 <=? length pending)%nat then flushPendingLogs h else ret tt.

Definition startAutoSend (h : Host) : M unit :=
  if negb (hasWindow h) then ret tt else
  modify (set_sendLogsTimer true).

Definition addToHistory (h : Host) (entry : LogEntry) : M unit :=
  modify (fun s => set_logHistory (logHistory s ++ [entry]) s) >>
  let* history := get logHistory in
  (if (maxHistorySize <? length history)%nat
   then modify (fun s => set_logHistory (tail (logHistory s)) s)
   else ret tt) >>
  if bool_decide (level entry = ERROR) || bool_decide (level entry = WARN)
  then persistToLocalStorage h entry >> addToPendingLogs h entry
  else ret tt.

(** [log]; [t0] is the clock read by [formatMessage], [t1] the one stamped
    on the entry. *)
Definition log (h : Host) (t0 t1 : string) (lv : LogLevel) (msg : string)
    (d : option Payload) (comp act : option string) : M unit :=
  let formattedMessage := formatMessage t0 lv msg comp act in
  let entry := {| level := lv; message := msg; timestamp := t1; data := d;
                  component := comp; action := act;
                  userAgent := None; url := None; stack := None |} in
  addToHistory h entry >>
  let* dev := get isDevelopment in
  if negb dev && bool_decide (lv <> ERROR) && bool_decide (lv <> WARN)
  then ret tt else
  match lv with
  | DEBUG => if dev then console_call DEBUG formattedMessage else ret tt
  | INFO => console_call INFO formattedMessage
  | WARN => console_call WARN formattedMessage
  | ERROR => console_call ERROR formattedMessage
  end.

Definition debug (h : Host) (t0 t1 msg : string) (d : option Payload)
    (comp act : option string) : M unit :=
  log h t0 t1 DEBUG msg d comp act.

Definition info (h : Host) (t0 t1 msg : string) (d : option Payload)
    (comp act : option string) : M unit :=
  log h t0 t1 INFO msg d comp act.

Definition warn (h : Host) (t0 t1 msg : string) (d : option Payload)
    (comp act : option string) : M unit :=
  log h t0 t1 WARN msg d comp act.

Definition error (h : Host) (t0 t1 msg : string) (d : option Payload)
    (comp act : option string) : M unit :=
  log h t0 t1 ERROR msg d comp act.

Definition getHistory (lv : option LogLevel) (limit : option Z)
    : M (list LogEntry) :=
  let* filtered := get logHistory in
  let filtered := match lv with
                  | Some l => filter (fun entry => level entry = l) filtered
                  | None => filtered
                  end in
  let filtered := if truthy_number limit
                  then slice (- default 0%Z limit) None filtered
                  else filtered in
  ret filtered.

Definition clearHistory : M unit := modify (set_logHistory []).

Definition exportHistory : M Text :=
  let* history := get logHistory in JSON_stringify history.

Definition getPersistedLogs (h : Host) (lv : option LogLevel)
    : M (list LogEntry) :=
  if negb (hasWindow h) then ret [] else
  try_catch
    (let* stored := localStorage_getItem h in
     match truthy_text stored with
     | None => ret []
     | Some t =>
         let* logs := JSON_parse t in
         match lv with
         | Some l => ret (filter (fun entry => level entry = l) logs)
         | None => ret logs
         end
     end)
    (fun error => console_call WARN "Failed to get persisted logs:" >> ret []).

Definition clearPersistedLogs (h : Host) : M unit :=
  if negb (hasWindow h) then ret tt else
  try_catch
    (localStorage_removeItem h)
    (fun error => console_call WARN "Failed to clear persisted logs:").

Definition exportPersistedLogs (h : Host) (lv : option LogLevel) : M Text :=
  let* logs := getPersistedLogs h lv in
  JSON_stringify logs.

(** [iso.split('T')[0]]: the text before the first [T]. *)
Fixpoint beforeT (iso : string) : string :=
  match iso with
  | EmptyString => EmptyString
  | String c rest =>
      if Ascii.eqb c "T"%char then EmptyString else String c (beforeT rest)
  end.

Definition downloadPersistedLogs (h : Host) (now : string)
    (lv : option LogLevel) : M unit :=
  if negb (hasWindow h) then ret tt else
  let* logs := getPersistedLogs h lv in
  let* json := JSON_stringify logs in
  let name := "frontend-logs-" +:+ beforeT now +:+ ".json" in
  modify (fun s => set_downloads (downloads s ++ [(name, json)]) s).

(** ** Construction and the events of a session *)

Definition blank (dev : bool) (stored : option Text) : Logger :=
  {| isDevelopment := dev; logHistory := []; pendingLogs := [];
     sendLogsTimer := false; unloadListener := false;
     localStorage := stored; console := []; inflight := []; downloads := [] |}.

Definition constructor (h : Host) : M unit :=
  loadFromLocalStorage h >>
  startAutoSend h >>
  if hasWindow h then modify (set_unloadListener true) else ret tt.

Definition new_Logger (h : Host) (dev : bool) (stored : option Text) : Logger :=
  final (constructor h (blank dev stored)).

Record LogCall := {
  call_clock : string * string;
  call_level : LogLevel;
  call_message : string;
  call_data : option Payload;
  call_component : option string;
  call_action : option string;
}.

Definition entryOf (c : LogCall) : LogEntry :=
  {| level := call_level c; message := call_message c;
     timestamp := snd (call_clock c); data := call_data c;
     component := call_component c; action := call_action c;
     userAgent := None; url := None; stack := None |}.

Inductive Event :=
| Call (c : LogCall)                      (* a call of debug/info/warn/error *)
| TimerTick                               (* the interval timer fires *)
| BeforeUnload                            (* the page is being unloaded *)
| Settled (i : nat) (o : FetchOutcome).   (* the [i]-th request in flight settles *)

Definition step (h : Host) (ev : Event) : M unit :=
  match ev with
  | Call c =>
      log h (fst (call_clock c)) (snd (call_clock c)) (call_level c)
        (call_message c) (call_data c) (call_component c) (call_action c)
  | TimerTick =>
      let* on := get sendLogsTimer in
      if on then flushPendingLogs h else ret tt
  | BeforeUnload =>
      let* on := get unloadListener in
      if on then flushPendingLogs h else ret tt
  | Settled i o =>
      let* reqs := get inflight in
      match reqs !! i with
      | Some logsToSend =>
          modify (set_inflight (delete i reqs)) >>
          flushPendingLogs_resume o logsToSend
      | None => ret tt
      end
  end.

Definition run (h : Host) (evs : list Event) (s : Logger) : Logger :=
  foldl (fun s ev => final (step h ev s)) s evs.

(** ** Notions used in the statements *)

(** The [n] entries at the end of a list: its most recent ones. *)
Definition newest {A} (n : nat) (l : list A) : list A :=
  drop (length l - n) l.

(** The outcomes after which [flushPendingLogs] re-queues: a response that
    is not ok, and a rejected promise. *)
Definition failed (o : FetchOutcome) : bool :=
  match o with Response true => false | _ => true end.

(** Enqueueing entries one after the other, nothing else happening. *)
Definition enqueue_all (h : Host) (entries : list LogEntry) (s : Logger)
    : Logger :=
  foldl (fun s entry => final (addToPendingLogs h entry s)) s entries.

(** The request for these entries can leave: [fetch] is defined and
    [JSON.stringify] accepts every entry. *)
Definition sendable (h : Host) (logs : list LogEntry) : bool :=
  hasFetch h && forallb serialisable logs.

(** The stack trace a value carries: the stack of an [Error], the property
    [stack] of another value. *)
Definition carries_stack (p : option Payload) : option string :=
  match p with
  | Some (PError _ st _) => st
  | Some (PValue sp _) => sp
  | None => None
  end.

(** Hosts and calls used in the examples: a browser page whose localStorage
    works, and a server-side rendering context without [window]. *)
Definition browser : Host :=
  {| hasWindow := true; navigator := Some "Mozilla/5.0";
     href := "https://trailsaga.test/map";
     getItemThrows := false; setItemThrows := fun _ => false;
     removeItemThrows := false; hasFetch := true |}.

Definition server : Host :=
  {| hasWindow := false; navigator := None; href := "";
     getItemThrows := true; setItemThrows := fun _ => true;
     removeItemThrows := true; hasFetch := true |}.

Definition numbered (lv : LogLevel) (n : nat) : LogCall :=
  {| call_clock := ("2025-01-01T00:00:00.000Z", "2025-01-01T00:00:00.000Z");
     call_level := lv; call_message := pretty n; call_data := None;
     call_component := None; call_action := None |}.

Definition entry_n (lv : LogLevel) (n : nat) : LogEntry :=
  entryOf (numbered lv n).

(** A text between double quotes. *)
Definition quoted (t : string) : string :=
  String "034" (t +:+ String "034" "").

(** A warning whose data is a plain object with a property [stack], as an
    error that crossed a frame or was rebuilt from a response is. *)
Definition plain_with_stack : LogCall :=
  {| call_clock := ("2025-01-01T00:00:00.000Z", "2025-01-01T00:00:00.000Z");
     call_level := WARN; call_message := "render failed";
     call_data :=
       Some (PValue (Some "at render (Map.tsx:12)")
               (Writes ("{" +:+ quoted "stack" +:+ ":"
                        +:+ quoted "at render (Map.tsx:12)" +:+ "}")));
     call_component := None; call_action := None |}.

(** The same call with a value that [JSON.stringify] rejects, such as an
    object that refers to itself. *)
Definition cyclic (lv : LogLevel) (n : nat) : LogCall :=
  {| call_clock := ("2025-01-01T00:00:00.000Z", "2025-01-01T00:00:00.000Z");
     call_level := lv; call_message := pretty n;
     call_data := Some (PValue None Rejects);
     call_component := None; call_action := None |}.

Definition entries_n (lv : LogLevel) (first count : nat) : list LogEntry :=
  entry_n lv <$> seq first count.

(** A session in which every request fails as soon as it is sent: warnings
    1 to 101, each request rejected before the next warning. *)
Definition failing_session : list Event :=
  flat_map (fun n => if (10 <=? n)%nat
                     then [Call (numbered WARN n); Settled 0 NetworkError]
                     else [Call (numbered WARN n)]) (seq 1 100)
  ++ [Call (numbered WARN 101)].

(** The entries [JSON.parse] reads from the stored item; none when the item
    is missing, empty or not JSON. *)
Definition stored_logs (o : option Text) : list LogEntry :=
  match o with
  | Some (JsonText logs) => jsonEntry <$> logs
  | _ => []
  end.

(** The stored item can be read: it is missing, empty, or a JSON text. *)
Definition readable (o : option Text) : Prop := o <> Some BadText.

(** Reads and writes of localStorage succeed on this host. *)
Definition storage_works (h : Host) : Prop :=
  hasWindow h = true /\ getItemThrows h = false /\
  forall t, setItemThrows h t = false.

(** What [persistToLocalStorage] writes when nothing fails. *)
Definition persisted_text (h : Host) (entry : LogEntry) (o : option Text)
    : Text :=
  JsonText (newest maxLocalStorageSize (stored_logs o ++ [enrich h entry])).

(** The history after [push] and the conditional [shift]. *)
Definition pushed (history : list LogEntry) (entry : LogEntry) : list LogEntry :=
  if (maxHistorySize <? length (history ++ [entry]))%nat
  then tail (history ++ [entry])
  else history ++ [entry].

(** The level test of [addToHistory]. *)
Definition loud (lv : LogLevel) : bool :=
  bool_decide (lv = ERROR) || bool_decide (lv = WARN).

(** The effect of [addToPendingLogs]. *)
Definition enqueued (h : Host) (entry : LogEntry) (s : Logger) : Logger :=
  if (9 <=? length (pendingLogs s))%nat
  then if sendable h (pendingLogs s ++ [entry])
       then set_inflight (inflight s ++ [pendingLogs s ++ [entry]])
              (set_pendingLogs [] s)
       else set_pendingLogs (take 100 (pendingLogs s ++ [entry])) s
  else set_pendingLogs (pendingLogs s ++ [entry]) s.

(** What [log] adds to the console. *)
Definition console_output (dev : bool) (lv : LogLevel) (text : string)
    : list ConsoleCall :=
  match lv with
  | DEBUG => if dev then [{| channel := DEBUG; line := text |}] else []
  | INFO => if dev then [{| channel := INFO; line := text |}] else []
  | WARN => [{| channel := WARN; line := text |}]
  | ERROR => [{| channel := ERROR; line := text |}]
  end.

(** The entries a session logs, and those it hands to localStorage. *)
Definition logged (evs : list Event) : list LogEntry :=
  flat_map (fun ev => match ev with Call c => [entryOf c] | _ => [] end) evs.

Definition loud_logged (evs : list Event) : list LogEntry :=
  filter (fun entry => loud (level entry) = true) (logged evs).

(** Those of them that [JSON.stringify] accepts. *)
Definition storable_logged (evs : list Event) : list LogEntry :=
  filter (fun entry => serialisable entry = true) (loud_logged evs).

(** The entries of one level, in the order of the history. *)
Definition of_level (lv : LogLevel) (history : list LogEntry) : list LogEntry :=
  filter (fun entry => level entry = lv) history.

(** The example of the specification: five errors and three warnings. *)
Definition five_errors_three_warnings : list LogEntry :=
  [entry_n ERROR 1; entry_n WARN 2; entry_n ERROR 3; entry_n ERROR 4;
   entry_n WARN 5; entry_n ERROR 6; entry_n WARN 7; entry_n ERROR 8].

(** ** The other public methods *)

(** [sendLogsToBackend] up to its [await], and what it answers once the
    promise of [flushPendingLogs] has resolved. *)
Definition sendLogsToBackend (h : Host) : M unit := flushPendingLogs h.

Definition sendLogsToBackend_resume : M bool :=
  let* pending := get pendingLogs in
  ret (length pending =? 0)%nat.

Definition logApiRequest (h : Host) (t0 t1 : string) (method address : string)
    (d : option Payload) (comp : option string) : M unit :=
  info h t0 t1 ("API request: " +:+ method +:+ " " +:+ address) d comp
    (Some "API_REQUEST").

Definition logApiError (h : Host) (t0 t1 : string) (method address : string)
    (err : option Payload) (comp : option string) : M unit :=
  error h t0 t1 ("API error: " +:+ method +:+ " " +:+ address) err comp
    (Some "API_ERROR").

Inductive Lifecycle := mount | unmount | update.

Definition lifecycle_name (l : Lifecycle) : string :=
  match l with mount => "mount" | unmount => "unmount" | update => "update" end.

Definition logComponentLifecycle (h : Host) (t0 t1 : string) (comp : string)
    (lifecycle : Lifecycle) (props : option Payload) : M unit :=
  let act := match lifecycle with
             | mount => "MOUNT"
             | unmount => "UNMOUNT"
             | update => "UPDATE"
             end in
  debug h t0 t1 ("Component " +:+ lifecycle_name lifecycle +:+ ": " +:+ comp)
    props (Some comp) (Some act).

(** An integer that a JavaScript number holds exactly: below 2^53 in
    absolute value.  The template prints it in decimal. *)
Record SafeInteger := {
  int_value : Z;
  int_safe : (Z.abs int_value <? 2 ^ 53)%Z = true;
}.

(** A JavaScript number: [NaN], an integer held exactly, or any other
    number (a fraction, an integer from 2^53 on, an infinity), which is
    never zero and is known here by the text a template prints for it. *)
Inductive JsNumber :=
| NaN
| Exact (n : SafeInteger)
| OtherNumber (text : string).

(** [entityId?: number | string]. *)
Inductive EntityId := IdNumber (x : JsNumber) | IdString (t : string).

Definition truthy_id (o : option EntityId) : bool :=
  match o with
  | Some (IdNumber NaN) => false
  | Some (IdNumber (Exact n)) => negb (int_value n =? 0)%Z
  | Some (IdNumber (OtherNumber _)) => true
  | Some (IdString t) => negb (String.eqb t "")
  | None => false
  end.

Definition id_text (o : option EntityId) : string :=
  match o with
  | Some (IdNumber NaN) => "NaN"
  | Some (IdNumber (Exact n)) => pretty (int_value n)
  | Some (IdNumber (OtherNumber text)) => text
  | Some (IdString t) => t
  | None => "undefined"
  end.

Definition safe_zero : SafeInteger :=
  {| int_value := 0; int_safe := eq_refl |}.

Definition logBusinessLogic (h : Host) (t0 t1 : string) (act entity : string)
    (entityId : option EntityId) (d : option Payload) (comp : option string)
    : M unit :=
  let msg := if truthy_id entityId
             then act +:+ " " +:+ entity +:+ " (id=" +:+ id_text entityId +:+ ")"
             else act +:+ " " +:+ entity in
  info h t0 t1 msg d comp (Some "BUSINESS_LOGIC").

Definition logUserAction (h : Host) (t0 t1 : string) (act : string)
    (d : option Payload) (comp : option string) : M unit :=
  info h t0 t1 ("👤 User action: " +:+ act) d comp (Some "USER_ACTION").

(** ** Notions used in the further properties *)

(** The stored item is a text that [JSON.parse] rejects. *)
Definition unparsable (o : option Text) : bool :=
  match o with Some BadText => true | _ => false end.

(** What [getPersistedLogs] returns and the state it leaves. *)
Definition persisted_read (h : Host) (lv : option LogLevel) (s : Logger)
    : list LogEntry :=
  let read := if hasWindow h && negb (getItemThrows h)
              then stored_logs (localStorage s) else [] in
  match lv with Some l => of_level l read | None => read end.

Definition after_read (h : Host) (s : Logger) : Logger :=
  if hasWindow h && (getItemThrows h || unparsable (localStorage s))
  then set_console
         (console s ++ [{| channel := WARN;
                           line := "Failed to get persisted logs:" |}]) s
  else s.

(** The warning of [persistToLocalStorage], and when it is printed on a
    host with a window: the read throws, the stored text does not parse,
    [JSON.stringify] rejects the data of the entry, or the write throws. *)
Definition persist_warning : ConsoleCall :=
  {| channel := WARN; line := "Failed to persist log to localStorage:" |}.

Definition persist_fails (h : Host) (entry : LogEntry) (o : option Text)
    : bool :=
  getItemThrows h || unparsable o || negb (serialisable entry)
  || setItemThrows h (persisted_text h entry o).

(** No request of the session fails. *)
Definition no_failure (evs : list Event) : Prop :=
  Forall (fun ev => match ev with
                    | Settled _ o => failed o = false
                    | _ => True
                    end) evs.

(** The entries waiting in the queue or travelling in a request, oldest
    request first. *)
Definition outstanding (s : Logger) : list LogEntry :=
  concat (inflight s) ++ pendingLogs s.

(** What a flush does to the queue and the requests in flight. *)
Definition flushed (h : Host) (s : Logger)
    : list LogEntry * list (list LogEntry) :=
  match pendingLogs s with
  | [] => (pendingLogs s, inflight s)
  | _ => if sendable h (pendingLogs s)
         then ([], inflight s ++ [pendingLogs s])
         else (take 100 (pendingLogs s), inflight s)
  end.

(** Two states with the same stored item, queue and requests in flight. *)
Definition same_store_and_queue (s s' : Logger) : Prop :=
  localStorage s' = localStorage s /\ pendingLogs s' = pendingLogs s /\
  inflight s' = inflight s.

(** The text has no letter [T]. *)
Definition no_T (t : string) : Prop :=
  Forall (fun c => c <> "T"%char) (String.list_ascii_of_string t).

(** The line [log] writes for a call. *)
Definition console_line (c : LogCall) : ConsoleCall :=
  {| channel := call_level c;
     line := formatMessage (fst (call_clock c)) (call_level c)
               (call_message c) (call_component c) (call_action c) |}.

(** * Properties *)

(** ** Slices *)

Section Slices.
Context {A : Type}.
Implicit Types l k : list A.

Lemma slice_from_end n l :
  0 < n -> slice (- Z.of_nat n) None l = newest n l.
Proof.
  intros Hn. unfold slice, relIndex, newest.
  destruct (Z.ltb_spec (- Z.of_nat n) 0) as [_|]; [|lia].
  replace (Z.to_nat (Z.max (Z.of_nat (length l) + - Z.of_nat n) 0))
    with (length l - n) by lia.
  apply take_ge. rewrite length_drop. lia.
Qed.

Lemma slice_from_end_Z (n : Z) l :
  (0 < n)%Z -> slice (- n) None l = newest (Z.to_nat n) l.
Proof.
  intros Hn. rewrite <- (slice_from_end (Z.to_nat n)) by lia.
  by rewrite Z2Nat.id by lia.
Qed.

Lemma slice_from_start n l :
  slice 0 (Some (Z.of_nat n)) l = take n l.
Proof.
  unfold slice, relIndex. simpl.
  destruct (Z.ltb_spec (Z.of_nat n) 0) as [|_]; [lia|].
  replace (Z.min 0 (Z.of_nat (length l))) with 0%Z by lia.
  replace (Z.to_nat (Z.min (Z.of_nat n) (Z.of_nat (length l)) - 0))
    with (Nat.min n (length l)) by lia.
  change (Z.to_nat 0) with 0. rewrite drop_0.
  destruct (Nat.le_gt_cases n (length l)) as [Hle|Hgt].
  - by rewrite Nat.min_l by lia.
  - rewrite Nat.min_r by lia. by rewrite !take_ge by lia.
Qed.

Lemma newest_all n l : length l <= n -> newest n l = l.
Proof. intros Hle. unfold newest. by replace (length l - n) with 0 by lia. Qed.

Lemma length_newest n l : length (newest n l) = Nat.min n (length l).
Proof. unfold newest. rewrite length_drop. lia. Qed.

Lemma newest_suffix n l : newest n l `suffix_of` l.
Proof. apply suffix_drop. Qed.

Lemma newest_snoc n l x :
  newest (S n) (l ++ [x]) = newest n l ++ [x].
Proof.
  unfold newest. rewrite length_app. simpl.
  replace (length l + 1 - S n) with (length l - n) by lia.
  rewrite drop_app_le by lia. done.
Qed.

Lemma newest_newest_snoc n l x :
  newest n (newest n l ++ [x]) = newest n (l ++ [x]).
Proof.
  destruct n as [|n].
  - unfold newest. rewrite !Nat.sub_0_r, !drop_all. done.
  - rewrite !newest_snoc. f_equal.
    unfold newest. rewrite drop_drop, length_drop. f_equal. lia.
Qed.

Lemma newest_fmap {B} (f : A -> B) n l :
  newest n (f <$> l) = f <$> newest n l.
Proof. unfold newest. by rewrite length_fmap, fmap_drop. Qed.

(** What [push] followed by one [shift] keeps, on a list within bounds. *)
Lemma tail_snoc_newest n l x :
  length l = n -> 0 < n -> tail (l ++ [x]) = newest n (l ++ [x]).
Proof.
  intros Hl Hn. unfold newest. rewrite length_app. simpl.
  replace (length l + 1 - n) with 1 by lia.
  by destruct l.
Qed.
End Slices.

(** ** The queue of entries to send *)

Ltac unfold_monad :=
  unfold requeue, console_call in *;
  unfold bind, ret, throw, get, modify, try_catch in *.

Lemma flushPendingLogs_empty h s :
  pendingLogs s = [] -> flushPendingLogs h s = Ret tt s.
Proof. intros Hp. unfold flushPendingLogs. unfold_monad. by rewrite Hp. Qed.

(** On a non-empty queue, the body of the [try] runs with the queue already
    cleared. *)
Lemma flushPendingLogs_attempt h s :
  pendingLogs s <> [] ->
  flushPendingLogs h s
  = try_catch
      (fetch_ref h >>
       let* body := JSON_stringify (pendingLogs s) in
       fetch (pendingLogs s))
      (fun error => requeue (pendingLogs s))
      (set_pendingLogs [] s).
Proof.
  intros Hp. unfold flushPendingLogs. unfold bind at 1. unfold get.
  by destruct (pendingLogs s) as [|e p] eqn:Heq.
Qed.

Lemma set_pendingLogs_twice l k s :
  set_pendingLogs l (set_pendingLogs k s) = set_pendingLogs l s.
Proof. reflexivity. Qed.

Lemma flushPendingLogs_send h s :
  pendingLogs s <> [] -> sendable h (pendingLogs s) = true ->
  flushPendingLogs h s
  = Ret tt (set_inflight (inflight s ++ [pendingLogs s]) (set_pendingLogs [] s)).
Proof.
  intros Hp Hs. rewrite flushPendingLogs_attempt by done.
  apply andb_prop in Hs as (Hf & Hj).
  unfold JSON_stringify, fetch_ref, fetch. unfold_monad. by rewrite Hf, Hj.
Qed.

Lemma flushPendingLogs_stuck h s :
  pendingLogs s <> [] -> sendable h (pendingLogs s) = false ->
  flushPendingLogs h s
  = Ret tt (set_pendingLogs (take 100 (pendingLogs s)) s).
Proof.
  intros Hp Hs. rewrite flushPendingLogs_attempt by done.
  unfold sendable in Hs. unfold JSON_stringify, fetch_ref, fetch.
  unfold_monad.
  destruct (forallb serialisable (pendingLogs s)), (hasFetch h);
    try discriminate;
    cbn -[slice]; rewrite app_nil_r; by rewrite (slice_from_start 100).
Qed.

Lemma resume_ok logsToSend s :
  flushPendingLogs_resume (Response true) logsToSend s = Ret tt s.
Proof. done. Qed.

Lemma resume_failed o logsToSend s :
  failed o = true ->
  flushPendingLogs_resume o logsToSend s
  = Ret tt (set_pendingLogs (take 100 (logsToSend ++ pendingLogs s)) s).
Proof.
  intros Ho. destruct o as [[]|]; [done| |];
    unfold flushPendingLogs_resume; unfold_monad;
    by rewrite (slice_from_start 100).
Qed.

Lemma addToPendingLogs_below h entry s :
  length (pendingLogs s) < 9 ->
  addToPendingLogs h entry s
  = Ret tt (set_pendingLogs (pendingLogs s ++ [entry]) s).
Proof.
  intros Hlen. unfold addToPendingLogs. unfold_monad. cbn -[Nat.leb].
  rewrite length_app. cbn -[Nat.leb].
  destruct (Nat.leb_spec 10 (length (pendingLogs s) + 1)); [lia|done].
Qed.

Lemma addToPendingLogs_flush h entry s :
  9 <= length (pendingLogs s) ->
  addToPendingLogs h entry s
  = flushPendingLogs h (set_pendingLogs (pendingLogs s ++ [entry]) s).
Proof.
  intros Hlen. unfold addToPendingLogs. unfold_monad.
  cbn -[Nat.leb flushPendingLogs].
  rewrite length_app. cbn -[Nat.leb flushPendingLogs].
  by destruct (Nat.leb_spec 10 (length (pendingLogs s) + 1)); [|lia].
Qed.

Lemma addToPendingLogs_threshold h entry s :
  9 <= length (pendingLogs s) ->
  sendable h (pendingLogs s ++ [entry]) = true ->
  addToPendingLogs h entry s
  = Ret tt (set_inflight (inflight s ++ [pendingLogs s ++ [entry]])
              (set_pendingLogs [] s)).
Proof.
  intros Hlen Hs. rewrite addToPendingLogs_flush by done.
  rewrite flushPendingLogs_send; [done| |done].
  cbn. by destruct (pendingLogs s).
Qed.

Lemma addToPendingLogs_stuck h entry s :
  9 <= length (pendingLogs s) ->
  sendable h (pendingLogs s ++ [entry]) = false ->
  addToPendingLogs h entry s
  = Ret tt (set_pendingLogs (take 100 (pendingLogs s ++ [entry])) s).
Proof.
  intros Hlen Hs. rewrite addToPendingLogs_flush by done.
  rewrite flushPendingLogs_stuck; [done| |done].
  cbn. by destruct (pendingLogs s).
Qed.

Lemma set_pendingLogs_id s : set_pendingLogs (pendingLogs s) s = s.
Proof. by destruct s. Qed.

Lemma enqueue_all_below h entries s :
  length (pendingLogs s) + length entries < 10 ->
  enqueue_all h entries s = set_pendingLogs (pendingLogs s ++ entries) s.
Proof.
  revert s. induction entries as [|e entries IH]; intros s Hlen; simpl in Hlen.
  - simpl. by rewrite app_nil_r, set_pendingLogs_id.
  - change (enqueue_all h (e :: entries) s)
      with (enqueue_all h entries (final (addToPendingLogs h e s))).
    rewrite addToPendingLogs_below by lia. cbn [final].
    rewrite IH; simpl.
    + by rewrite <- app_assoc.
    + rewrite length_app. simpl. lia.
Qed.

Lemma enqueue_all_snoc h entries entry s :
  enqueue_all h (entries ++ [entry]) s
  = final (addToPendingLogs h entry (enqueue_all h entries s)).
Proof. unfold enqueue_all. by rewrite foldl_app. Qed.

Lemma sendable_app h l k :
  sendable h (l ++ k) = true -> sendable h l = true.
Proof.
  unfold sendable. rewrite forallb_app.
  destruct (hasFetch h), (forallb serialisable l); done.
Qed.

Lemma sendable_snoc_false h l x :
  sendable h l = false -> sendable h (l ++ [x]) = false.
Proof.
  intros Hl. destruct (sendable h (l ++ [x])) eqn:Hs; [|done].
  apply sendable_app in Hs. congruence.
Qed.

(** C7: [flushPendingLogs] on an empty queue changes nothing.  On a
    non-empty queue it copies the queue and clears it, and only then runs
    the [try]: when the body can be serialised and [fetch] called, one
    request leaves with the copy and the queue is empty while it travels;
    when that throws, no request leaves and the copy is put back at once.
    When a request settles with an ok response only the list of requests
    in flight changes, so the entries it carried do not come back and the
    entries enqueued meanwhile stay. *)
Theorem flush_snapshot_clear_success (h : Host) (s : Logger) (i : nat)
    (batch : list LogEntry) :
  (pendingLogs s = [] -> flushPendingLogs h s = Ret tt s) /\
  (pendingLogs s <> [] ->
     flushPendingLogs h s
     = try_catch
         (fetch_ref h >>
          let* body := JSON_stringify (pendingLogs s) in
          fetch (pendingLogs s))
         (fun error => requeue (pendingLogs s))
         (set_pendingLogs [] s) /\
     (sendable h (pendingLogs s) = true ->
        flushPendingLogs h s
        = Ret tt (set_inflight (inflight s ++ [pendingLogs s])
                    (set_pendingLogs [] s))) /\
     (sendable h (pendingLogs s) = false ->
        flushPendingLogs h s
        = Ret tt (set_pendingLogs (take 100 (pendingLogs s)) s))) /\
  (inflight s !! i = Some batch ->
     step h (Settled i (Response true)) s
     = Ret tt (set_inflight (delete i (inflight s)) s)).
Proof.
  split; [apply flushPendingLogs_empty|]. split.
  - intros Hp. split; [by apply flushPendingLogs_attempt|]. split.
    + by apply flushPendingLogs_send.
    + by apply flushPendingLogs_stuck.
  - intros Hi. unfold step. unfold_monad. by rewrite Hi.
Qed.

Lemma flush_snapshot_clear_success_witness :
  flushPendingLogs browser (blank false None) = Ret tt (blank false None) /\
  flushPendingLogs browser
    (set_pendingLogs [entry_n WARN 1] (blank false None))
  = Ret tt (set_inflight [[entry_n WARN 1]] (blank false None)) /\
  flushPendingLogs browser
    (set_pendingLogs [entryOf (cyclic WARN 1)] (blank false None))
  = Ret tt (set_pendingLogs [entryOf (cyclic WARN 1)] (blank false None)) /\
  step browser (Settled 0 (Response true))
    (set_pendingLogs [entry_n WARN 2]
       (set_inflight [[entry_n WARN 1]] (blank false None)))
  = Ret tt (set_pendingLogs [entry_n WARN 2] (blank false None)).
Proof.
  split; [|split; [|split]].
  - destruct (flush_snapshot_clear_success browser (blank false None) 0 [])
      as (Hempty & _ & _).
    apply Hempty. reflexivity.
  - destruct (flush_snapshot_clear_success browser
                (set_pendingLogs [entry_n WARN 1] (blank false None)) 0 [])
      as (_ & Hsend & _).
    destruct Hsend as (_ & Hsend & _); [simpl; discriminate|].
    apply Hsend. reflexivity.
  - destruct (flush_snapshot_clear_success browser
                (set_pendingLogs [entryOf (cyclic WARN 1)] (blank false None))
                0 [])
      as (_ & Hstuck & _).
    destruct Hstuck as (_ & _ & Hstuck); [simpl; discriminate|].
    apply Hstuck. reflexivity.
  - destruct (flush_snapshot_clear_success browser
                (set_pendingLogs [entry_n WARN 2]
                   (set_inflight [[entry_n WARN 1]] (blank false None)))
                0 [entry_n WARN 1])
      as (_ & _ & Hok).
    apply Hok. reflexivity.
Defined.

(** C6 (as the code has it): from a queue below the threshold, the enqueues
    that bring its length to 10 send nothing before the tenth entry.  At the
    tenth entry the queue is flushed once: when the ten entries can be
    serialised and [fetch] called, one request leaves with all ten and the
    queue is empty, so that an eleventh enqueue only puts its entry in the
    queue; when that throws, the ten entries are put back at once and no
    request leaves, and the eleventh enqueue flushes again, with the same
    result. *)
Theorem threshold_flush_once (h : Host) (s : Logger)
    (entries : list LogEntry) (eleventh : LogEntry) :
  length (pendingLogs s) < 10 ->
  length (pendingLogs s) + length entries = 10 ->
  (forall k, k < length entries ->
     enqueue_all h (take k entries) s
     = set_pendingLogs (pendingLogs s ++ take k entries) s) /\
  (sendable h (pendingLogs s ++ entries) = true ->
     enqueue_all h entries s
     = set_inflight (inflight s ++ [pendingLogs s ++ entries])
         (set_pendingLogs [] s) /\
     final (addToPendingLogs h eleventh (enqueue_all h entries s))
     = set_inflight (inflight s ++ [pendingLogs s ++ entries])
         (set_pendingLogs [eleventh] s)) /\
  (sendable h (pendingLogs s ++ entries) = false ->
     enqueue_all h entries s = set_pendingLogs (pendingLogs s ++ entries) s /\
     final (addToPendingLogs h eleventh (enqueue_all h entries s))
     = set_pendingLogs (pendingLogs s ++ entries ++ [eleventh]) s).
Proof.
  intros Hbelow Hten.
  destruct entries as [|e front _] using rev_ind; [simpl in Hten; lia|].
  rewrite length_app in Hten. simpl in Hten.
  assert (Hfront : enqueue_all h front s
                   = set_pendingLogs (pendingLogs s ++ front) s)
    by (apply enqueue_all_below; lia).
  split; [|split].
  - intros k Hk. rewrite length_app in Hk. simpl in Hk.
    apply enqueue_all_below. rewrite length_take, length_app. simpl. lia.
  - intros Hs.
    assert (Hall : enqueue_all h (front ++ [e]) s
                   = set_inflight (inflight s ++ [pendingLogs s ++ front ++ [e]])
                       (set_pendingLogs [] s)).
    { rewrite enqueue_all_snoc, Hfront.
      rewrite addToPendingLogs_threshold.
      - simpl. by rewrite <- app_assoc.
      - simpl. rewrite length_app. lia.
      - simpl. by rewrite <- app_assoc. }
    split; [exact Hall|].
    rewrite Hall. by rewrite addToPendingLogs_below by (simpl; lia).
  - intros Hs.
    assert (Hall : enqueue_all h (front ++ [e]) s
                   = set_pendingLogs (pendingLogs s ++ front ++ [e]) s).
    { rewrite enqueue_all_snoc, Hfront.
      rewrite addToPendingLogs_stuck.
      - simpl. rewrite <- app_assoc, take_ge; [done|].
        rewrite !length_app. simpl. lia.
      - simpl. rewrite length_app. lia.
      - simpl. by rewrite <- app_assoc. }
    split; [exact Hall|].
    rewrite Hall. rewrite addToPendingLogs_stuck.
    + simpl. rewrite <- !app_assoc, take_ge; [reflexivity|].
      rewrite !length_app. simpl. lia.
    + simpl. rewrite !length_app. simpl. lia.
    + simpl. by apply sendable_snoc_false.
Qed.

Lemma threshold_flush_once_witness :
  let s := set_pendingLogs (entries_n WARN 1 7) (blank false None) in
  let entries := entries_n ERROR 8 3 in
  enqueue_all browser (take 2 entries) s
  = set_pendingLogs (entries_n WARN 1 7 ++ take 2 entries)
      (blank false None) /\
  enqueue_all browser entries s
  = set_inflight [entries_n WARN 1 7 ++ entries] (blank false None) /\
  final (addToPendingLogs browser (entry_n WARN 11)
           (enqueue_all browser entries s))
  = set_inflight [entries_n WARN 1 7 ++ entries]
      (set_pendingLogs [entry_n WARN 11] (blank false None)).
Proof.
  intros s entries.
  destruct (threshold_flush_once browser s entries (entry_n WARN 11))
    as (Hbefore & Hat & _).
  - simpl. lia.
  - reflexivity.
  - destruct Hat as (Hat & Hafter); [reflexivity|].
    split; [|split].
    + apply (Hbefore 2). simpl. lia.
    + exact Hat.
    + exact Hafter.
Defined.

(** C6 as stated fails when the tenth entry carries a value that
    [JSON.stringify] rejects: the flush it triggers sends nothing and puts
    the ten entries back, and the eleventh enqueue flushes again. *)
Lemma threshold_flush_counterexample :
  let s := set_pendingLogs (entries_n WARN 1 9) (blank false None) in
  let tenth := final (addToPendingLogs browser (entryOf (cyclic WARN 10)) s) in
  let eleventh := final (addToPendingLogs browser (entry_n WARN 11) tenth) in
  length (pendingLogs s) = 9 /\
  length (pendingLogs tenth) = 10 /\ inflight tenth = [] /\
  pendingLogs tenth <> [] /\
  length (pendingLogs eleventh) = 11 /\ inflight eleventh = [] /\
  pendingLogs eleventh <> [entry_n WARN 11].
Proof. vm_compute. repeat split; discriminate. Qed.

(** C2: when the request fails (response not ok, or no response), the queue
    becomes the failed batch followed by what the queue held at that moment,
    cut after 100 entries: batch entries come first, in their order, then
    the entries enqueued during the attempt, and no more than 100 in all. *)
Theorem failed_flush_requeues_batch_first (o : FetchOutcome)
    (batch : list LogEntry) (s : Logger) :
  failed o = true ->
  let s' := final (flushPendingLogs_resume o batch s) in
  pendingLogs s'
  = take 100 batch ++ take (100 - length batch) (pendingLogs s) /\
  length (pendingLogs s') <= 100 /\
  (length batch <= 100 -> batch `prefix_of` pendingLogs s').
Proof.
  intros Ho s'. subst s'. rewrite resume_failed by done. simpl.
  rewrite take_app. split; [done|]. split.
  - rewrite length_app, !length_take. lia.
  - intros Hlen. rewrite (take_ge batch) by lia. by apply prefix_app_r.
Qed.

Lemma failed_flush_requeues_batch_first_witness :
  let batch := entries_n WARN 1 10 in
  let s := set_pendingLogs (entries_n ERROR 11 3) (blank false None) in
  pendingLogs (final (flushPendingLogs_resume NetworkError batch s))
  = entries_n WARN 1 10 ++ entries_n ERROR 11 3.
Proof.
  intros batch s.
  destruct (failed_flush_requeues_batch_first NetworkError batch s)
    as (Hq & _ & _); [reflexivity|].
  exact Hq.
Defined.

(** C1 (as the code has it): when the request fails and the failed batch
    followed by the current queue has more than 100 entries, the queue
    becomes the first 100 entries of that list; what is cut is its end. *)
Theorem failed_flush_overflow_keeps_first (o : FetchOutcome)
    (batch : list LogEntry) (s : Logger) :
  failed o = true ->
  100 < length (batch ++ pendingLogs s) ->
  let s' := final (flushPendingLogs_resume o batch s) in
  pendingLogs s' = take 100 (batch ++ pendingLogs s) /\
  length (pendingLogs s') = 100 /\
  batch ++ pendingLogs s
  = pendingLogs s' ++ drop 100 (batch ++ pendingLogs s).
Proof.
  intros Ho Hlen s'. subst s'. rewrite resume_failed by done. simpl.
  split; [done|]. split.
  - rewrite length_take. lia.
  - by rewrite take_drop.
Qed.

Lemma failed_flush_overflow_keeps_first_witness :
  let batch := entries_n WARN 1 101 in
  let s := blank false None in
  pendingLogs (final (flushPendingLogs_resume (Response false) batch s))
  = entries_n WARN 1 100.
Proof.
  intros batch s.
  destruct (failed_flush_overflow_keeps_first (Response false) batch s)
    as (Hq & _ & _); [reflexivity|vm_compute; lia|].
  rewrite Hq. vm_compute. reflexivity.
Defined.

(** C1 as stated fails: in the session where each of warnings 1 to 101 is
    followed by the failure of the request it caused, the last request
    carries all 101 warnings; when it fails the queue is warnings 1 to 100,
    and the most recent 100 entries would be warnings 2 to 101. *)
Lemma requeue_most_recent_counterexample :
  let s := run browser failing_session (new_Logger browser false None) in
  let batch := entries_n WARN 1 101 in
  let s' := final (step browser (Settled 0 NetworkError) s) in
  inflight s = [batch] /\ pendingLogs s = [] /\
  100 < length (batch ++ pendingLogs s) /\
  pendingLogs s' = entries_n WARN 1 100 /\
  newest 100 (batch ++ pendingLogs s) = entries_n WARN 2 100 /\
  pendingLogs s' <> newest 100 (batch ++ pendingLogs s).
Proof.
  vm_compute. repeat split; try lia. intros Heq. discriminate Heq.
Qed.

(** ** The persisted entries *)

Lemma jsonEntry_idemp e : jsonEntry (jsonEntry e) = jsonEntry e.
Proof.
  destruct e as [? ? ? [[? ? [own|]|sp [| |t]]|] ? ? ? ? ?]; reflexivity.
Qed.

Lemma jsonEntry_fmap_idemp (l : list LogEntry) :
  jsonEntry <$> (jsonEntry <$> l) = jsonEntry <$> l.
Proof.
  rewrite <- list_fmap_compose. apply list_fmap_ext.
  intros _ e _. apply jsonEntry_idemp.
Qed.

(** What was read from a text can be written again. *)
Lemma serialisable_jsonEntry e : serialisable (jsonEntry e) = true.
Proof.
  destruct e as [? ? ? [[? ? [own|]|sp [| |t]]|] ? ? ? ? ?]; reflexivity.
Qed.

Lemma serialisable_parsed (l : list LogEntry) :
  forallb serialisable (jsonEntry <$> l) = true.
Proof.
  induction l as [|e l IH]; [done|]. rewrite fmap_cons. cbn [forallb].
  by rewrite serialisable_jsonEntry, IH.
Qed.

Lemma serialisable_stored o : forallb serialisable (stored_logs o) = true.
Proof. destruct o as [[| |logs]|]; try done. apply serialisable_parsed. Qed.

Lemma forallb_drop {A} (f : A -> bool) n (l : list A) :
  forallb f l = true -> forallb f (drop n l) = true.
Proof.
  revert n. induction l as [|x l IH]; intros [|n] Hl; try done.
  simpl in *. apply andb_prop in Hl as (_ & Hl). by apply IH.
Qed.

Lemma serialisable_persisted h entry o :
  forallb serialisable
    (newest maxLocalStorageSize (stored_logs o ++ [enrich h entry]))
  = serialisable entry.
Proof.
  change maxLocalStorageSize with (S 499).
  rewrite newest_snoc, forallb_app. unfold newest.
  rewrite forallb_drop by apply serialisable_stored.
  simpl. by rewrite andb_true_r.
Qed.

Lemma cap_newest {A} n (l : list A) :
  0 < n ->
  (if (n <? length l)%nat then slice (- Z.of_nat n) None l else l)
  = newest n l.
Proof.
  intros Hn. destruct (Nat.ltb_spec n (length l)).
  - by apply slice_from_end.
  - symmetry. apply newest_all. lia.
Qed.

Lemma persist_write h entry o logs s :
  logs = stored_logs o ->
  (let* text :=
     JSON_stringify
       (if (maxLocalStorageSize <? length (logs ++ [enrich h entry]))%nat
        then slice (- Z.of_nat maxLocalStorageSize) None
               (logs ++ [enrich h entry])
        else logs ++ [enrich h entry]) in
   localStorage_setItem h text) s
  = if serialisable entry
    then if setItemThrows h (persisted_text h entry o)
         then Thrown DOMException s
         else Ret tt (set_localStorage (Some (persisted_text h entry o)) s)
    else Thrown TypeError s.
Proof.
  intros ->. rewrite cap_newest by (cbv; lia).
  unfold JSON_stringify, bind. rewrite serialisable_persisted.
  by destruct (serialisable entry).
Qed.

(** [persistToLocalStorage], case by case. *)
Lemma persist_eq h entry s :
  persistToLocalStorage h entry s
  = Ret tt
      (if negb (hasWindow h) then s
       else if persist_fails h entry (localStorage s)
            then set_console (console s ++ [persist_warning]) s
            else set_localStorage
                   (Some (persisted_text h entry (localStorage s))) s).
Proof.
  unfold persistToLocalStorage, persist_fails, localStorage_getItem.
  destruct (hasWindow h); [|done]. cbn [negb].
  unfold try_catch, bind at 1.
  destruct (getItemThrows h); [done|]. cbn [orb].
  destruct (localStorage s) as [[| |logs]|] eqn:Hst;
    cbn [truthy_text unparsable orb]; try done;
    unfold bind at 1; unfold JSON_parse; unfold ret; cbv beta iota;
    [rewrite (persist_write h entry (Some EmptyText) [] s eq_refl)
    |rewrite (persist_write h entry (Some (JsonText logs))
                (jsonEntry <$> logs) s eq_refl)
    |rewrite (persist_write h entry None [] s eq_refl)];
    destruct (serialisable entry); cbn [negb orb]; try done;
    by destruct (setItemThrows h _).
Qed.

Lemma persist_returns h entry s :
  persistToLocalStorage h entry s
  = Ret tt (final (persistToLocalStorage h entry s)).
Proof. by rewrite persist_eq. Qed.

Lemma persist_works h entry s :
  storage_works h -> readable (localStorage s) ->
  serialisable entry = true ->
  persistToLocalStorage h entry s
  = Ret tt (set_localStorage (Some (persisted_text h entry (localStorage s))) s).
Proof.
  intros (Hw & Hget & Hset) Hread Hser. rewrite persist_eq.
  unfold persist_fails. rewrite Hw, Hget, Hser, Hset. cbn [negb orb].
  by destruct (localStorage s) as [[| |logs]|].
Qed.

Lemma persist_frame h entry s :
  let s' := final (persistToLocalStorage h entry s) in
  isDevelopment s' = isDevelopment s /\ logHistory s' = logHistory s /\
  pendingLogs s' = pendingLogs s /\ inflight s' = inflight s /\
  sendLogsTimer s' = sendLogsTimer s /\ unloadListener s' = unloadListener s /\
  downloads s' = downloads s.
Proof.
  cbv zeta. rewrite persist_eq. cbn [final].
  by destruct (negb (hasWindow h)), (persist_fails h entry (localStorage s)).
Qed.

Lemma persist_store h entry s :
  let s' := final (persistToLocalStorage h entry s) in
  localStorage s' = localStorage s \/
  localStorage s' = Some (persisted_text h entry (localStorage s)).
Proof.
  cbv zeta. rewrite persist_eq. cbn [final].
  destruct (negb (hasWindow h)), (persist_fails h entry (localStorage s));
    by auto.
Qed.

Lemma persist_no_window h entry s :
  hasWindow h = false -> persistToLocalStorage h entry s = Ret tt s.
Proof. intros Hw. unfold persistToLocalStorage. by rewrite Hw. Qed.

(** The store that [persistToLocalStorage] leaves, as a function of the
    store it finds. *)
Lemma persist_store_eq h entry s :
  localStorage (final (persistToLocalStorage h entry s))
  = if negb (hasWindow h) || persist_fails h entry (localStorage s)
    then localStorage s
    else Some (persisted_text h entry (localStorage s)).
Proof.
  rewrite persist_eq. cbn [final].
  by destruct (negb (hasWindow h)), (persist_fails h entry (localStorage s)).
Qed.

Lemma persist_rejected h entry s :
  serialisable entry = false ->
  localStorage (final (persistToLocalStorage h entry s)) = localStorage s.
Proof.
  intros Hser. rewrite persist_store_eq. unfold persist_fails. rewrite Hser.
  cbn [negb]. by rewrite orb_true_r, orb_true_r.
Qed.

(** ** One call of [log] *)

Lemma flushPendingLogs_eq h s :
  flushPendingLogs h s
  = Ret tt (match pendingLogs s with
            | [] => s
            | _ => if sendable h (pendingLogs s)
                   then set_inflight (inflight s ++ [pendingLogs s])
                          (set_pendingLogs [] s)
                   else set_pendingLogs (take 100 (pendingLogs s)) s
            end).
Proof.
  destruct (pendingLogs s) as [|e p] eqn:Hp.
  - by apply flushPendingLogs_empty.
  - rewrite <- Hp. destruct (sendable h (pendingLogs s)) eqn:Hs.
    + apply flushPendingLogs_send; [by rewrite Hp|done].
    + apply flushPendingLogs_stuck; [by rewrite Hp|done].
Qed.

Lemma flushPendingLogs_frame h s :
  let s' := final (flushPendingLogs h s) in
  flushPendingLogs h s = Ret tt s' /\
  logHistory s' = logHistory s /\ localStorage s' = localStorage s /\
  console s' = console s /\ sendLogsTimer s' = sendLogsTimer s /\
  unloadListener s' = unloadListener s /\ isDevelopment s' = isDevelopment s /\
  downloads s' = downloads s.
Proof.
  cbv zeta. rewrite flushPendingLogs_eq. cbn [final].
  destruct (pendingLogs s) as [|e p]; [done|].
  by destruct (sendable h (e :: p)).
Qed.

(** Closes a goal about a field that a flush does not touch. *)
Ltac flush_frame h s :=
  let Hf := fresh in
  destruct (flushPendingLogs_frame h s) as (Hf & ? & ? & ? & ? & ? & ? & ?);
  rewrite Hf; cbn [final]; done.

Lemma addToPendingLogs_eq h entry s :
  addToPendingLogs h entry s = Ret tt (enqueued h entry s).
Proof.
  unfold enqueued. destruct (Nat.leb_spec 9 (length (pendingLogs s))).
  - destruct (sendable h (pendingLogs s ++ [entry])) eqn:Hs.
    + by apply addToPendingLogs_threshold.
    + by apply addToPendingLogs_stuck.
  - by apply addToPendingLogs_below.
Qed.

Lemma addToHistory_eq h entry s :
  addToHistory h entry s
  = Ret tt
      (let s1 := set_logHistory (pushed (logHistory s) entry) s in
       if loud (level entry)
       then enqueued h entry (final (persistToLocalStorage h entry s1))
       else s1).
Proof.
  unfold addToHistory, pushed, loud. unfold_monad.
  cbn -[Nat.ltb maxHistorySize persistToLocalStorage addToPendingLogs].
  destruct (maxHistorySize <? length (logHistory s ++ [entry]))%nat;
    cbn -[Nat.ltb maxHistorySize persistToLocalStorage addToPendingLogs];
    (destruct (bool_decide (level entry = ERROR) || bool_decide (level entry = WARN));
     [|done]);
    rewrite persist_returns, addToPendingLogs_eq; done.
Qed.

Lemma log_eq h t0 t1 lv msg d comp act s :
  let entry := {| level := lv; message := msg; timestamp := t1; data := d;
                  component := comp; action := act;
                  userAgent := None; url := None; stack := None |} in
  let s2 := final (addToHistory h entry s) in
  log h t0 t1 lv msg d comp act s
  = Ret tt (set_console
              (console s2
               ++ console_output (isDevelopment s2) lv
                    (formatMessage t0 lv msg comp act)) s2).
Proof.
  intros entry s2. unfold log. fold entry.
  assert (Hadd : addToHistory h entry s = Ret tt s2)
    by (subst s2; by rewrite addToHistory_eq).
  clearbody s2. unfold_monad. rewrite Hadd.
  destruct (isDevelopment s2) eqn:Hdev, lv; cbn; rewrite ?Hdev; cbn;
    rewrite ?app_nil_r; try done; by destruct s2.
Qed.

Lemma enqueued_frame h entry s :
  logHistory (enqueued h entry s) = logHistory s /\
  localStorage (enqueued h entry s) = localStorage s /\
  isDevelopment (enqueued h entry s) = isDevelopment s.
Proof.
  unfold enqueued.
  by destruct (9 <=? length (pendingLogs s))%nat,
    (sendable h (pendingLogs s ++ [entry])).
Qed.

Lemma addToHistory_history h entry s :
  logHistory (final (addToHistory h entry s)) = pushed (logHistory s) entry.
Proof.
  rewrite addToHistory_eq. cbn [final]. cbv zeta.
  destruct (loud (level entry)); [|done].
  destruct (enqueued_frame h entry
    (final (persistToLocalStorage h entry
       (set_logHistory (pushed (logHistory s) entry) s)))) as (-> & _).
  by destruct (persist_frame h entry
    (set_logHistory (pushed (logHistory s) entry) s)) as (_ & -> & _).
Qed.

Lemma addToHistory_store h entry s :
  localStorage (final (addToHistory h entry s))
  = if loud (level entry)
    then localStorage (final (persistToLocalStorage h entry s))
    else localStorage s.
Proof.
  rewrite addToHistory_eq. cbn [final]. cbv zeta.
  destruct (loud (level entry)); [|done].
  destruct (enqueued_frame h entry
    (final (persistToLocalStorage h entry
       (set_logHistory (pushed (logHistory s) entry) s)))) as (_ & -> & _).
  by rewrite !persist_store_eq.
Qed.

Lemma step_history h ev s :
  logHistory (final (step h ev s))
  = match ev with
    | Call c => pushed (logHistory s) (entryOf c)
    | _ => logHistory s
    end.
Proof.
  destruct ev as [c| | |i o]; simpl.
  - rewrite log_eq. cbn [final logHistory set_console].
    apply addToHistory_history.
  - unfold_monad. destruct (sendLogsTimer s); [|done]. flush_frame h s.
  - unfold_monad. destruct (unloadListener s); [|done]. flush_frame h s.
  - unfold_monad. destruct (inflight s !! i); [|done].
    by destruct o as [[]|].
Qed.

Lemma step_store h ev s :
  localStorage (final (step h ev s))
  = match ev with
    | Call c =>
        if loud (call_level c)
        then localStorage (final (persistToLocalStorage h (entryOf c) s))
        else localStorage s
    | _ => localStorage s
    end.
Proof.
  destruct ev as [c| | |i o]; simpl.
  - rewrite log_eq. cbn [final localStorage set_console].
    apply addToHistory_store.
  - unfold_monad. destruct (sendLogsTimer s); [|done]. flush_frame h s.
  - unfold_monad. destruct (unloadListener s); [|done]. flush_frame h s.
  - unfold_monad. destruct (inflight s !! i); [|done].
    by destruct o as [[]|].
Qed.

(** ** Sessions *)

Lemma newest_newest_app {A} n (l k : list A) :
  newest n (newest n l ++ k) = newest n (l ++ k).
Proof.
  induction k as [|x k IH] using rev_ind.
  - rewrite !app_nil_r. apply newest_all. rewrite length_newest. lia.
  - rewrite !app_assoc.
    rewrite <- (newest_newest_snoc n (newest n l ++ k)), IH.
    apply newest_newest_snoc.
Qed.

Lemma pushed_newest history entry :
  length history <= maxHistorySize ->
  pushed history entry = newest maxHistorySize (history ++ [entry]).
Proof.
  intros Hlen. unfold pushed.
  destruct (Nat.ltb_spec maxHistorySize (length (history ++ [entry])))
    as [Hlt|Hge].
  - rewrite length_app in Hlt. simpl in Hlt.
    apply tail_snoc_newest; [lia|]. cbv; lia.
  - symmetry. by apply newest_all.
Qed.

Lemma run_cons h ev evs s :
  run h (ev :: evs) s = run h evs (final (step h ev s)).
Proof. reflexivity. Qed.

Lemma logged_cons ev evs :
  logged (ev :: evs)
  = match ev with Call c => [entryOf c] | _ => [] end ++ logged evs.
Proof. reflexivity. Qed.

Lemma run_history h evs s :
  length (logHistory s) <= maxHistorySize ->
  logHistory (run h evs s)
  = newest maxHistorySize (logHistory s ++ logged evs).
Proof.
  revert s. induction evs as [|ev evs IH]; intros s Hlen.
  - simpl. rewrite app_nil_r. symmetry. by apply newest_all.
  - rewrite run_cons, logged_cons, IH, step_history.
    + destruct ev as [c| | |]; [|by rewrite ?app_nil_l..].
      rewrite pushed_newest by done.
      by rewrite newest_newest_app, <- app_assoc.
    + rewrite step_history. destruct ev as [c| | |]; try done.
      rewrite pushed_newest by done. rewrite length_newest. lia.
Qed.

Lemma stored_logs_persisted h entry o :
  stored_logs (Some (persisted_text h entry o))
  = newest maxLocalStorageSize (stored_logs o ++ [jsonEntry (enrich h entry)]).
Proof.
  unfold persisted_text. cbn [stored_logs].
  rewrite <- newest_fmap, fmap_app. f_equal. f_equal.
  destruct o as [[| |logs]|]; try done. cbn [stored_logs].
  apply jsonEntry_fmap_idemp.
Qed.

Lemma run_store_bound h evs s :
  length (stored_logs (localStorage s)) <= maxLocalStorageSize ->
  length (stored_logs (localStorage (run h evs s))) <= maxLocalStorageSize.
Proof.
  revert s. induction evs as [|ev evs IH]; intros s Hlen; [done|].
  rewrite run_cons. apply IH. rewrite step_store.
  destruct ev as [c| | |]; try done.
  destruct (loud (call_level c)); [|done].
  destruct (persist_store h (entryOf c) s) as [->| ->]; [done|].
  rewrite stored_logs_persisted, length_newest. lia.
Qed.

Lemma loud_logged_cons ev evs :
  loud_logged (ev :: evs)
  = match ev with
    | Call c => if loud (call_level c) then [entryOf c] else []
    | _ => []
    end ++ loud_logged evs.
Proof.
  unfold loud_logged. rewrite logged_cons, filter_app. f_equal.
  destruct ev as [c| | |]; try done.
  rewrite filter_cons. simpl. by destruct (loud (call_level c)).
Qed.

Lemma storable_logged_cons ev evs :
  storable_logged (ev :: evs)
  = match ev with
    | Call c =>
        if loud (call_level c) && serialisable (entryOf c)
        then [entryOf c] else []
    | _ => []
    end ++ storable_logged evs.
Proof.
  unfold storable_logged. rewrite loud_logged_cons, filter_app. f_equal.
  destruct ev as [c| | |]; try done.
  destruct (loud (call_level c)); [|done].
  rewrite filter_cons. simpl. by destruct (serialisable (entryOf c)).
Qed.

Lemma run_store_content h evs s :
  storage_works h -> readable (localStorage s) ->
  length (stored_logs (localStorage s)) <= maxLocalStorageSize ->
  stored_logs (localStorage (run h evs s))
  = newest maxLocalStorageSize
      (stored_logs (localStorage s)
       ++ (jsonEntry <$> (enrich h <$> storable_logged evs))).
Proof.
  intros Hworks. revert s.
  induction evs as [|ev evs IH]; intros s Hread Hlen.
  - simpl. rewrite app_nil_r. symmetry. by apply newest_all.
  - rewrite run_cons, storable_logged_cons.
    assert (Hquiet : localStorage (final (step h ev s)) = localStorage s ->
      stored_logs (localStorage (run h evs (final (step h ev s))))
      = newest maxLocalStorageSize
          (stored_logs (localStorage s)
           ++ (jsonEntry <$> (enrich h <$> storable_logged evs)))).
    { intros Heq. rewrite IH; rewrite Heq; done. }
    pose proof (step_store h ev s) as Hstep.
    destruct ev as [c| | |]; try (by apply Hquiet).
    destruct (loud (call_level c)); [|by apply Hquiet]. cbn [andb].
    destruct (serialisable (entryOf c)) eqn:Hser.
    + rewrite persist_works in Hstep by done. cbn [final] in Hstep.
      cbn [localStorage set_localStorage] in Hstep.
      rewrite IH; rewrite Hstep.
      * rewrite stored_logs_persisted, newest_newest_app.
        by rewrite <- app_assoc.
      * done.
      * rewrite stored_logs_persisted, length_newest. lia.
    + rewrite persist_rejected in Hstep by done. by apply Hquiet.
Qed.

Lemma new_Logger_history h dev stored :
  logHistory (new_Logger h dev stored)
  = if hasWindow h && negb (getItemThrows h)
    then newest maxHistorySize (stored_logs stored)
    else [].
Proof.
  unfold new_Logger, constructor, loadFromLocalStorage, startAutoSend,
    localStorage_getItem, JSON_parse. unfold_monad.
  destruct (hasWindow h); cbn -[slice newest]; [|done].
  destruct (getItemThrows h); cbn -[slice newest]; [done|].
  destruct stored as [[| |logs]|]; cbn -[slice newest]; try done.
  apply (slice_from_end maxHistorySize). cbv; lia.
Qed.

Lemma new_Logger_store h dev stored :
  localStorage (new_Logger h dev stored) = stored.
Proof.
  unfold new_Logger, constructor, loadFromLocalStorage, startAutoSend,
    localStorage_getItem, JSON_parse. unfold_monad.
  destruct (hasWindow h); cbn -[slice]; [|done].
  destruct (getItemThrows h); cbn -[slice]; [done|].
  by destruct stored as [[| |logs]|].
Qed.

Lemma storable_logged_all evs :
  Forall (fun entry => serialisable entry = true) (loud_logged evs) ->
  storable_logged evs = loud_logged evs.
Proof.
  unfold storable_logged. generalize (loud_logged evs) as l.
  induction l as [|e l IH]; intros Hall; [done|].
  apply Forall_cons in Hall as (He & Hall).
  rewrite filter_cons, decide_True by done. by rewrite IH.
Qed.

(** C3: in every session of a freshly constructed logger the history never
    holds more than 100 entries and is the last 100 of what it was seeded
    with followed by the entries logged, in that order; the stored list
    never holds more than 500 entries if it did not at the start, and when
    reading and writing localStorage work it is the last 500 of what was
    stored followed by the warn and error entries logged, in that order,
    those whose data [JSON.stringify] rejects never being appended: when it
    rejects none, every warn and error entry logged is appended. *)
Theorem buffers_bounded_drop_oldest (h : Host) (dev : bool)
    (stored : option Text) (evs : list Event) :
  let s0 := new_Logger h dev stored in
  let s := run h evs s0 in
  length (logHistory s) <= 100 /\
  logHistory s = newest 100 (logHistory s0 ++ logged evs) /\
  (length (stored_logs stored) <= 500 ->
   length (stored_logs (localStorage s)) <= 500) /\
  (storage_works h -> readable stored -> length (stored_logs stored) <= 500 ->
   stored_logs (localStorage s)
   = newest 500 (stored_logs stored
                 ++ (jsonEntry <$> (enrich h <$> storable_logged evs)))) /\
  (storage_works h -> readable stored -> length (stored_logs stored) <= 500 ->
   Forall (fun entry => serialisable entry = true) (loud_logged evs) ->
   stored_logs (localStorage s)
   = newest 500 (stored_logs stored
                 ++ (jsonEntry <$> (enrich h <$> loud_logged evs)))).
Proof.
  intros s0 s.
  assert (Hseed : length (logHistory s0) <= maxHistorySize).
  { subst s0. rewrite new_Logger_history.
    destruct (hasWindow h && negb (getItemThrows h)); [|simpl; lia].
    rewrite length_newest. lia. }
  assert (Hstore : localStorage s0 = stored) by apply new_Logger_store.
  clearbody s0. split; [|split; [|split; [|split]]].
  - subst s. rewrite run_history by done. rewrite length_newest.
    change maxHistorySize with 100. lia.
  - subst s. by apply run_history.
  - intros Hlen. subst s. apply run_store_bound. by rewrite Hstore.
  - intros Hworks Hread Hlen. subst s.
    rewrite run_store_content; rewrite ?Hstore; done.
  - intros Hworks Hread Hlen Hall. subst s.
    rewrite run_store_content; rewrite ?Hstore; try done.
    by rewrite storable_logged_all.
Qed.

Lemma buffers_bounded_drop_oldest_witness :
  let evs := Call <$> (numbered WARN <$> seq 1 501) in
  let s := run browser evs (new_Logger browser false None) in
  length (logHistory s) <= 100 /\
  logHistory s = entries_n WARN 402 100 /\
  length (stored_logs (localStorage s)) <= 500 /\
  stored_logs (localStorage s) = enrich browser <$> entries_n WARN 2 500.
Proof.
  intros evs s.
  destruct (buffers_bounded_drop_oldest browser false None evs)
    as (Hlen & Hhist & Hbound & Hstored & _).
  split; [exact Hlen|]. split; [|split].
  - subst s. rewrite Hhist. vm_compute. reflexivity.
  - apply Hbound. simpl. lia.
  - subst s. rewrite Hstored.
    + vm_compute. reflexivity.
    + repeat split.
    + discriminate.
    + simpl. lia.
Defined.

(** ** Queries on the history *)

Lemma getHistory_eq lv limit s :
  getHistory lv limit s
  = Ret (let filtered := match lv with
                         | Some l => of_level l (logHistory s)
                         | None => logHistory s
                         end in
         if truthy_number limit
         then slice (- default 0%Z limit) None filtered
         else filtered) s.
Proof. reflexivity. Qed.

(** C8: with a level, the query returns the entries of the history that
    have this level, in the order of the history; with a positive limit as
    well, it returns the last [limit] of them (all of them when there are
    fewer), in the same order; with a positive limit and no level, the last
    [limit] entries of the history. *)
Theorem getHistory_level_and_limit (s : Logger) (lv : LogLevel) (limit : Z) :
  (0 < limit)%Z ->
  getHistory (Some lv) None s = Ret (of_level lv (logHistory s)) s /\
  (forall entry, entry ∈ of_level lv (logHistory s)
                 <-> entry ∈ logHistory s /\ level entry = lv) /\
  of_level lv (logHistory s) `sublist_of` logHistory s /\
  getHistory (Some lv) (Some limit) s
  = Ret (newest (Z.to_nat limit) (of_level lv (logHistory s))) s /\
  (length (newest (Z.to_nat limit) (of_level lv (logHistory s)))
   <= Z.to_nat limit) /\
  newest (Z.to_nat limit) (of_level lv (logHistory s))
    `suffix_of` of_level lv (logHistory s) /\
  getHistory None (Some limit) s
  = Ret (newest (Z.to_nat limit) (logHistory s)) s.
Proof.
  intros Hpos. split; [done|]. split; [|split; [|split; [|split; [|split]]]].
  - intros entry. unfold of_level. by rewrite list_elem_of_filter, (comm and).
  - apply sublist_filter.
  - rewrite getHistory_eq. cbn [truthy_number from_option id].
    destruct (Z.eqb_spec limit 0) as [|_]; [lia|]. cbn [negb].
    by rewrite slice_from_end_Z by lia.
  - rewrite length_newest. lia.
  - apply newest_suffix.
  - rewrite getHistory_eq. cbn [truthy_number from_option id].
    destruct (Z.eqb_spec limit 0) as [|_]; [lia|]. cbn [negb].
    by rewrite slice_from_end_Z by lia.
Qed.

Lemma getHistory_level_and_limit_witness :
  let s := set_logHistory five_errors_three_warnings (blank false None) in
  getHistory (Some ERROR) (Some 2%Z) s
  = Ret [entry_n ERROR 6; entry_n ERROR 8] s.
Proof.
  intros s.
  destruct (getHistory_level_and_limit s ERROR 2) as (_ & _ & _ & Hq & _);
    [lia|].
  rewrite Hq. vm_compute. reflexivity.
Defined.

(** C10: a limit of 0 is not a limit: the query returns all the entries
    that pass the level filter, as it does without a limit. *)
Theorem getHistory_limit_zero (s : Logger) (lv : option LogLevel) :
  getHistory lv (Some 0%Z) s = getHistory lv None s /\
  getHistory lv (Some 0%Z) s
  = Ret (match lv with
         | Some l => of_level l (logHistory s)
         | None => logHistory s
         end) s.
Proof. split; reflexivity. Qed.

(** ** Routing by level *)

Lemma loud_spec lv : loud lv = true <-> lv = WARN \/ lv = ERROR.
Proof. destruct lv; cbv; intuition discriminate. Qed.

Lemma quiet_spec lv : loud lv = false <-> lv = DEBUG \/ lv = INFO.
Proof. destruct lv; cbv; intuition discriminate. Qed.

Lemma call_queue h c s :
  let s' := final (step h (Call c) s) in
  (pendingLogs s', inflight s')
  = if loud (call_level c)
    then if (9 <=? length (pendingLogs s))%nat
         then if sendable h (pendingLogs s ++ [entryOf c])
              then ([], inflight s ++ [pendingLogs s ++ [entryOf c]])
              else (take 100 (pendingLogs s ++ [entryOf c]), inflight s)
         else (pendingLogs s ++ [entryOf c], inflight s)
    else (pendingLogs s, inflight s).
Proof.
  cbn [step]. rewrite log_eq. cbn [final pendingLogs inflight set_console].
  rewrite addToHistory_eq. cbn [final level]. cbv zeta.
  fold (entryOf c).
  destruct (loud (call_level c)); [|done].
  destruct (persist_frame h (entryOf c)
    (set_logHistory (pushed (logHistory s) (entryOf c)) s))
    as (_ & _ & Hp & Hi & _).
  cbn [pendingLogs inflight set_logHistory] in Hp, Hi.
  unfold enqueued. rewrite Hp, Hi.
  destruct (9 <=? length (pendingLogs s))%nat;
    [destruct (sendable h (pendingLogs s ++ [entryOf c]))|];
    cbn [pendingLogs inflight set_inflight set_pendingLogs]; by rewrite ?Hi.
Qed.

Lemma step_returns h ev s : step h ev s = Ret tt (final (step h ev s)).
Proof.
  destruct ev as [c| | |i o]; cbn [step].
  - by rewrite log_eq.
  - unfold_monad. destruct (sendLogsTimer s); [|done]. flush_frame h s.
  - unfold_monad. destruct (unloadListener s); [|done]. flush_frame h s.
  - unfold_monad. destruct (inflight s !! i); [|done].
    by destruct o as [[]|].
Qed.

(** C4 (as the code has it): a call with level debug or info only appends
    its entry to the history: the stored item, the queue and the requests
    in flight are left as they were.  A call with level warn or error also
    puts its entry at the end of the queue and flushes the queue when that
    makes ten entries: the request then leaves with the queue when every
    queued entry can be serialised and [fetch] is defined, and otherwise
    the entries stay in the queue.  It also hands the entry to
    [persistToLocalStorage]: the entry, enriched, becomes the last of the
    stored list when the host has a window, localStorage can be read and
    written and [JSON.stringify] accepts the data of the entry; the stored
    item is left as it was without a window, and when [JSON.stringify]
    rejects the data. *)
Theorem log_routes_by_level (h : Host) (c : LogCall) (s : Logger) :
  let entry := entryOf c in
  let s' := final (step h (Call c) s) in
  logHistory s' = pushed (logHistory s) entry /\
  (call_level c = DEBUG \/ call_level c = INFO ->
     localStorage s' = localStorage s /\ pendingLogs s' = pendingLogs s /\
     inflight s' = inflight s) /\
  (call_level c = WARN \/ call_level c = ERROR ->
     (length (pendingLogs s) < 9 ->
        pendingLogs s' = pendingLogs s ++ [entry] /\ inflight s' = inflight s) /\
     (9 <= length (pendingLogs s) ->
      sendable h (pendingLogs s ++ [entry]) = true ->
        pendingLogs s' = [] /\
        inflight s' = inflight s ++ [pendingLogs s ++ [entry]]) /\
     (9 <= length (pendingLogs s) ->
      sendable h (pendingLogs s ++ [entry]) = false ->
        pendingLogs s' = take 100 (pendingLogs s ++ [entry]) /\
        inflight s' = inflight s) /\
     (storage_works h -> readable (localStorage s) ->
      serialisable entry = true ->
        stored_logs (localStorage s')
        = newest 500 (stored_logs (localStorage s)
                      ++ [jsonEntry (enrich h entry)])) /\
     (serialisable entry = false -> localStorage s' = localStorage s) /\
     (hasWindow h = false -> localStorage s' = localStorage s)).
Proof.
  intros entry s'. subst entry.
  pose proof (call_queue h c s) as Hq. cbv zeta in Hq. fold s' in Hq.
  pose proof (step_store h (Call c) s) as Hst. fold s' in Hst.
  cbn match in Hst.
  split; [apply (step_history h (Call c) s)|]. split.
  - intros Hlv. apply quiet_spec in Hlv. rewrite Hlv in Hq, Hst.
    by inversion Hq.
  - intros Hlv. apply loud_spec in Hlv. rewrite Hlv in Hq, Hst.
    split; [|split; [|split; [|split; [|split]]]].
    + intros Hlen.
      destruct (Nat.leb_spec 9 (length (pendingLogs s))); [lia|].
      by inversion Hq.
    + intros Hlen Hs. rewrite Hs in Hq.
      destruct (Nat.leb_spec 9 (length (pendingLogs s))); [|lia].
      by inversion Hq.
    + intros Hlen Hs. rewrite Hs in Hq.
      destruct (Nat.leb_spec 9 (length (pendingLogs s))); [|lia].
      by inversion Hq.
    + intros Hworks Hread Hser. rewrite Hst, persist_works by done.
      cbn [final localStorage set_localStorage].
      apply stored_logs_persisted.
    + intros Hser. by rewrite Hst, persist_rejected.
    + intros Hw. by rewrite Hst, persist_no_window.
Qed.

Lemma log_routes_by_level_witness :
  let s := new_Logger browser false None in
  let quiet := final (step browser (Call (numbered INFO 1)) s) in
  let noisy := final (step browser (Call (numbered WARN 2)) s) in
  let full := set_pendingLogs (entries_n WARN 1 9) s in
  let sent := final (step browser (Call (numbered WARN 10)) full) in
  let stuck := final (step browser (Call (cyclic WARN 10)) full) in
  (localStorage quiet = None /\ pendingLogs quiet = [] /\ inflight quiet = []) /\
  (pendingLogs noisy = [entry_n WARN 2] /\ inflight noisy = []) /\
  stored_logs (localStorage noisy) = [enrich browser (entry_n WARN 2)] /\
  (pendingLogs sent = [] /\ inflight sent = [entries_n WARN 1 10]) /\
  (pendingLogs stuck = entries_n WARN 1 9 ++ [entryOf (cyclic WARN 10)] /\
   inflight stuck = []) /\
  localStorage stuck = None.
Proof.
  intros s quiet noisy full sent stuck.
  destruct (log_routes_by_level browser (numbered INFO 1) s)
    as (_ & Hquiet & _).
  destruct (log_routes_by_level browser (numbered WARN 2) s)
    as (_ & _ & Hnoisy).
  destruct (log_routes_by_level browser (numbered WARN 10) full)
    as (_ & _ & Hsent).
  destruct (log_routes_by_level browser (cyclic WARN 10) full)
    as (_ & _ & Hstuck).
  destruct Hnoisy as (Hbelow & _ & _ & Hstored & _); [by left|].
  destruct Hsent as (_ & Hsent & _); [by left|].
  destruct Hstuck as (_ & _ & Hstuck & _ & Hrejected & _); [by left|].
  split; [|split; [|split; [|split; [|split]]]].
  - apply Hquiet. by right.
  - apply Hbelow. simpl. lia.
  - subst noisy. rewrite Hstored; [reflexivity|repeat split|discriminate|].
    reflexivity.
  - apply Hsent; [simpl; lia|reflexivity].
  - apply Hstuck; [simpl; lia|reflexivity].
  - subst stuck. rewrite Hrejected; reflexivity.
Defined.

(** C4 as stated fails where there is no window: a warning logged there is
    queued for sending but nothing is stored. *)
Lemma warn_without_window_counterexample :
  let s := new_Logger server false None in
  let s' := final (step server (Call (numbered WARN 1)) s) in
  call_level (numbered WARN 1) = WARN /\
  pendingLogs s' = [entry_n WARN 1] /\
  localStorage s' = None /\
  getPersistedLogs server None s' = Ret [] s' /\
  ~ (exists kept, kept ∈ stored_logs (localStorage s')).
Proof.
  vm_compute. repeat split. intros (kept & Hin). inversion Hin.
Qed.

(** ** Reading the stored entries back *)

Lemma getPersistedLogs_works h lv s :
  storage_works h -> readable (localStorage s) ->
  getPersistedLogs h lv s
  = Ret (match lv with
         | Some l => of_level l (stored_logs (localStorage s))
         | None => stored_logs (localStorage s)
         end) s.
Proof.
  intros (Hw & Hget & _) Hread.
  unfold getPersistedLogs, localStorage_getItem, JSON_parse. unfold_monad.
  rewrite Hw, Hget. cbn [negb].
  destruct (localStorage s) as [[| |logs]|]; cbn; try (by destruct Hread);
    by destruct lv.
Qed.

Lemma last_newest_snoc {A} n (l : list A) x :
  0 < n -> last (newest n (l ++ [x])) = Some x.
Proof.
  intros Hn. destruct n as [|n]; [lia|].
  by rewrite newest_snoc, last_snoc.
Qed.

(** C5 (as the code has it): when the host has a window, localStorage can
    be read and written and [JSON.stringify] accepts the data of the entry,
    the entry that [persistToLocalStorage] leaves at the end of the stored
    list, as [getPersistedLogs] reads it back, carries the user agent of the
    host (when there is a [navigator]), the address of the page, and a
    stack exactly when the data of the entry is an [Error] instance that has
    a stack; data that is not an [Error] instance gets no stack, whatever it
    carries.  Its level, message, timestamp, component and action are those
    of the entry, and this holds for every entry, so for every warn or error
    entry. *)
Theorem persisted_entry_is_enriched (h : Host) (entry : LogEntry) (s : Logger) :
  storage_works h -> readable (localStorage s) -> serialisable entry = true ->
  let s' := final (persistToLocalStorage h entry s) in
  exists logs kept,
    getPersistedLogs h None s' = Ret logs s' /\
    last logs = Some kept /\
    userAgent kept = navigator h /\
    url kept = Some (href h) /\
    (forall st, stack kept = Some st
                <-> exists msg own,
                      data entry = Some (PError msg (Some st) own)) /\
    (forall sp serial, data entry = Some (PValue sp serial) ->
                       stack kept = None) /\
    level kept = level entry /\ message kept = message entry /\
    timestamp kept = timestamp entry /\ component kept = component entry /\
    action kept = action entry.
Proof.
  intros Hworks Hread Hser s'.
  exists (stored_logs (localStorage s')), (jsonEntry (enrich h entry)).
  assert (Hs' : localStorage s'
                = Some (persisted_text h entry (localStorage s))).
  { subst s'. by rewrite persist_works. }
  split; [|split; [|split; [|split; [|split; [|split]]]]].
  - apply (getPersistedLogs_works h None); [done|]. by rewrite Hs'.
  - rewrite Hs', stored_logs_persisted. apply last_newest_snoc. cbv; lia.
  - done.
  - destruct Hworks as (Hw & _). simpl. by rewrite Hw.
  - intros st. simpl.
    destruct (data entry) as [[msg [st'|] own|sp serial]|]; split;
      try (intros [=]); try (intros (m & o & [=])); subst; eauto.
  - intros sp serial Hd. simpl. by rewrite Hd.
  - done.
Qed.

Lemma persisted_entry_is_enriched_witness :
  let boom := {| level := ERROR; message := "request failed";
                 timestamp := "2025-01-01T00:00:00.000Z";
                 data := Some (PError "boom" (Some "Error: boom at fetchTrail")
                                 (Some "{}"));
                 component := Some "TrailMap"; action := Some "API_ERROR";
                 userAgent := None; url := None; stack := None |} in
  let s' := final (persistToLocalStorage browser boom (blank false None)) in
  exists logs kept,
    getPersistedLogs browser None s' = Ret logs s' /\
    last logs = Some kept /\
    userAgent kept = Some "Mozilla/5.0" /\
    url kept = Some "https://trailsaga.test/map" /\
    stack kept = Some "Error: boom at fetchTrail".
Proof.
  intros boom s'.
  destruct (persisted_entry_is_enriched browser boom (blank false None))
    as (logs & kept & Hread & Hlast & Hua & Hurl & Hstack & _).
  - repeat split.
  - discriminate.
  - reflexivity.
  - exists logs, kept. repeat split; try done.
    apply Hstack. by exists "boom", (Some "{}").
Defined.

(** C5 as stated fails for data that carries a stack trace without being
    an [Error] instance: a warning logged in a browser with a plain object
    that has a property [stack] is stored with the user agent and the
    address, and without a stack. *)
Lemma stack_of_plain_object_counterexample :
  let entry := entryOf plain_with_stack in
  let s' := final (step browser (Call plain_with_stack)
                     (new_Logger browser false None)) in
  level entry = WARN /\
  carries_stack (data entry) = Some "at render (Map.tsx:12)" /\
  exists kept,
    getPersistedLogs browser None s' = Ret [kept] s' /\
    userAgent kept = Some "Mozilla/5.0" /\
    url kept = Some "https://trailsaga.test/map" /\
    stack kept = None.
Proof.
  vm_compute. repeat split. eexists. repeat split.
Qed.

(** ** Failures of the storage *)

Ltac unfold_storage :=
  unfold exportPersistedLogs, downloadPersistedLogs in *;
  unfold persistToLocalStorage, loadFromLocalStorage, getPersistedLogs,
    clearPersistedLogs, localStorage_getItem, localStorage_setItem, localStorage_removeItem,
    JSON_parse in *;
  unfold_monad.

Lemma getPersistedLogs_eq h lv s :
  getPersistedLogs h lv s = Ret (persisted_read h lv s) (after_read h s).
Proof.
  unfold persisted_read, after_read. unfold_storage.
  destruct (hasWindow h), (getItemThrows h),
    (localStorage s) as [[| |logs]|] eqn:Hst, lv; cbn; rewrite ?Hst; done.
Qed.

Lemma forallb_filter {A} (f : A -> bool) (P : A -> Prop)
    `{!forall x, Decision (P x)} (l : list A) :
  forallb f l = true -> forallb f (filter P l) = true.
Proof.
  induction l as [|x l IH]; [done|]. simpl. intros Hl.
  apply andb_prop in Hl as (Hx & Hl). rewrite filter_cons.
  destruct (decide (P x)); [|by apply IH]. simpl. by rewrite Hx, IH.
Qed.

Lemma persisted_read_serialisable h lv s :
  forallb serialisable (persisted_read h lv s) = true.
Proof.
  unfold persisted_read. cbv zeta.
  assert (Hread : forallb serialisable
            (if hasWindow h && negb (getItemThrows h)
             then stored_logs (localStorage s) else []) = true).
  { destruct (hasWindow h && negb (getItemThrows h)); [|done].
    apply serialisable_stored. }
  destruct lv; [|done]. by apply forallb_filter.
Qed.

Lemma exportPersistedLogs_eq h lv s :
  exportPersistedLogs h lv s
  = Ret (JsonText (persisted_read h lv s)) (after_read h s).
Proof.
  unfold exportPersistedLogs, bind. rewrite getPersistedLogs_eq.
  unfold JSON_stringify. by rewrite persisted_read_serialisable.
Qed.

Lemma downloadPersistedLogs_eq h now lv s :
  downloadPersistedLogs h now lv s
  = Ret tt
      (if hasWindow h
       then set_downloads
              (downloads (after_read h s)
               ++ [("frontend-logs-" +:+ beforeT now +:+ ".json",
                    JsonText (persisted_read h lv s))])
              (after_read h s)
       else s).
Proof.
  unfold downloadPersistedLogs. destruct (hasWindow h) eqn:Hw; [|done].
  cbn [negb]. unfold bind at 1. rewrite getPersistedLogs_eq.
  unfold bind, JSON_stringify. rewrite persisted_read_serialisable.
  reflexivity.
Qed.

Lemma after_read_frame h s :
  logHistory (after_read h s) = logHistory s /\
  pendingLogs (after_read h s) = pendingLogs s /\
  localStorage (after_read h s) = localStorage s /\
  inflight (after_read h s) = inflight s /\
  downloads (after_read h s) = downloads s.
Proof.
  unfold after_read.
  by destruct (hasWindow h && (getItemThrows h || unparsable (localStorage s))).
Qed.

(** C9: without a window, persisting, loading, reading, clearing, exporting
    and downloading the stored entries return at once, with nothing or the
    empty list, and leave every part of the state as it was; on any host,
    whatever localStorage does (a read, a write or a removal that throws, a
    stored text that does not parse), these operations return and do not
    throw, and persisting leaves the history and the queue as they were. *)
Theorem storage_operations_never_throw (h : Host) (s : Logger)
    (entry : LogEntry) (lv : option LogLevel) (now : string) :
  (hasWindow h = false ->
     persistToLocalStorage h entry s = Ret tt s /\
     loadFromLocalStorage h s = Ret tt s /\
     getPersistedLogs h lv s = Ret [] s /\
     clearPersistedLogs h s = Ret tt s /\
     exportPersistedLogs h lv s = Ret (JsonText []) s /\
     downloadPersistedLogs h now lv s = Ret tt s) /\
  (returns (persistToLocalStorage h entry s) /\
   returns (loadFromLocalStorage h s) /\
   returns (getPersistedLogs h lv s) /\
   returns (clearPersistedLogs h s) /\
   returns (exportPersistedLogs h lv s) /\
   returns (downloadPersistedLogs h now lv s)) /\
  (logHistory (final (persistToLocalStorage h entry s)) = logHistory s /\
   pendingLogs (final (persistToLocalStorage h entry s)) = pendingLogs s /\
   inflight (final (persistToLocalStorage h entry s)) = inflight s).
Proof.
  split; [|split].
  - intros Hw.
    rewrite persist_no_window, getPersistedLogs_eq, exportPersistedLogs_eq,
      downloadPersistedLogs_eq by done.
    unfold persisted_read, after_read, loadFromLocalStorage,
      clearPersistedLogs. rewrite Hw. cbn [andb negb].
    by destruct lv.
  - rewrite persist_returns, getPersistedLogs_eq, exportPersistedLogs_eq,
      downloadPersistedLogs_eq.
    split; [done|]. split; [|split; [done|split; [|done]]].
    + unfold_storage. destruct (hasWindow h); cbn -[slice]; [|done].
      destruct (getItemThrows h); [done|].
      by destruct (localStorage s) as [[| |logs']|].
    + unfold_storage. destruct (hasWindow h); cbn; [|done].
      by destruct (removeItemThrows h).
  - destruct (persist_frame h entry s) as (_ & Hh & Hp & Hi & _). done.
Qed.

Lemma storage_operations_never_throw_witness :
  let s := set_logHistory [entry_n INFO 1] (blank false None) in
  persistToLocalStorage server (entry_n ERROR 2) s = Ret tt s /\
  getPersistedLogs server (Some ERROR) s = Ret [] s /\
  clearPersistedLogs server s = Ret tt s /\
  exportPersistedLogs server None s = Ret (JsonText []) s /\
  downloadPersistedLogs server "2025-01-01T00:00:00.000Z" None s = Ret tt s.
Proof.
  intros s.
  destruct (storage_operations_never_throw server s (entry_n ERROR 2)
              (Some ERROR) "2025-01-01T00:00:00.000Z")
    as (Hserver & _ & _).
  destruct Hserver as (Hpersist & _ & Hget & Hclear & _ & _); [reflexivity|].
  destruct (storage_operations_never_throw server s (entry_n ERROR 2)
              None "2025-01-01T00:00:00.000Z")
    as (Hserver & _ & _).
  destruct Hserver as (_ & _ & _ & _ & Hexport & Hdownload); [reflexivity|].
  repeat split; assumption.
Defined.

(** * Further properties *)

(** ** What one event does to the queue *)

Lemma flushPendingLogs_flushed h s :
  (pendingLogs (final (flushPendingLogs h s)),
   inflight (final (flushPendingLogs h s))) = flushed h s.
Proof.
  unfold flushed. rewrite flushPendingLogs_eq. cbn [final].
  destruct (pendingLogs s) as [|e p] eqn:Hp; [by rewrite Hp|].
  by destruct (sendable h (e :: p)).
Qed.

Lemma step_queue h ev s :
  let s' := final (step h ev s) in
  (pendingLogs s', inflight s')
  = match ev with
    | Call c =>
        if loud (call_level c)
        then if (9 <=? length (pendingLogs s))%nat
             then if sendable h (pendingLogs s ++ [entryOf c])
                  then ([], inflight s ++ [pendingLogs s ++ [entryOf c]])
                  else (take 100 (pendingLogs s ++ [entryOf c]), inflight s)
             else (pendingLogs s ++ [entryOf c], inflight s)
        else (pendingLogs s, inflight s)
    | TimerTick =>
        if sendLogsTimer s then flushed h s else (pendingLogs s, inflight s)
    | BeforeUnload =>
        if unloadListener s then flushed h s else (pendingLogs s, inflight s)
    | Settled i o =>
        match inflight s !! i with
        | Some batch =>
            (if failed o then take 100 (batch ++ pendingLogs s)
             else pendingLogs s, delete i (inflight s))
        | None => (pendingLogs s, inflight s)
        end
    end.
Proof.
  destruct ev as [c| | |i o]; cbv zeta.
  - apply call_queue.
  - cbn [step]. unfold_monad. destruct (sendLogsTimer s); [|done].
    apply flushPendingLogs_flushed.
  - cbn [step]. unfold_monad. destruct (unloadListener s); [|done].
    apply flushPendingLogs_flushed.
  - cbn [step]. unfold_monad. destruct (inflight s !! i) as [batch|]; [|done].
    destruct o as [[]|]; [done| |];
      unfold flushPendingLogs_resume; unfold_monad;
      cbn [final pendingLogs inflight set_pendingLogs set_inflight failed];
      by rewrite (slice_from_start 100).
Qed.

Lemma step_flags h ev s :
  let s' := final (step h ev s) in
  sendLogsTimer s' = sendLogsTimer s /\ unloadListener s' = unloadListener s /\
  isDevelopment s' = isDevelopment s.
Proof.
  destruct ev as [c| | |i o]; cbv zeta; cbn [step].
  - rewrite log_eq.
    cbn [final sendLogsTimer unloadListener isDevelopment set_console].
    rewrite addToHistory_eq. cbn [final]. cbv zeta.
    destruct (loud _); [|done].
    destruct (persist_frame h (entryOf c)
      (set_logHistory (pushed (logHistory s) (entryOf c)) s))
      as (Hd & _ & _ & _ & Ht & Hu & _).
    fold (entryOf c). unfold enqueued.
    destruct (9 <=? _)%nat; [destruct (sendable h _)|];
      cbn; by rewrite Ht, Hu, Hd.
  - unfold_monad. destruct (sendLogsTimer s) eqn:Ht; [|done].
    destruct (flushPendingLogs_frame h s)
      as (Hf & _ & _ & _ & Ht' & Hu' & Hd' & _).
    rewrite Hf. cbn [final]. by rewrite Ht', Hu', Hd', Ht.
  - unfold_monad. destruct (unloadListener s) eqn:Hu; [|done].
    destruct (flushPendingLogs_frame h s)
      as (Hf & _ & _ & _ & Ht' & Hu' & Hd' & _).
    rewrite Hf. cbn [final]. by rewrite Ht', Hu', Hd', Hu.
  - unfold_monad. destruct (inflight s !! i); [|done].
    by destruct o as [[]|].
Qed.

Lemma run_snoc h evs ev s :
  run h (evs ++ [ev]) s = final (step h ev (run h evs s)).
Proof. unfold run. by rewrite foldl_app. Qed.

Lemma logged_snoc evs ev :
  logged (evs ++ [ev])
  = logged evs ++ match ev with Call c => [entryOf c] | _ => [] end.
Proof. unfold logged. rewrite flat_map_app. simpl. by rewrite app_nil_r. Qed.

Lemma loud_logged_snoc evs ev :
  loud_logged (evs ++ [ev])
  = loud_logged evs
    ++ match ev with
       | Call c => if loud (call_level c) then [entryOf c] else []
       | _ => []
       end.
Proof.
  unfold loud_logged. rewrite logged_snoc, filter_app. f_equal.
  destruct ev as [c| | |]; try done.
  rewrite filter_cons. simpl. by destruct (loud (call_level c)).
Qed.

Lemma new_Logger_queue h dev stored :
  pendingLogs (new_Logger h dev stored) = [] /\
  inflight (new_Logger h dev stored) = [] /\
  sendLogsTimer (new_Logger h dev stored) = hasWindow h /\
  unloadListener (new_Logger h dev stored) = hasWindow h /\
  isDevelopment (new_Logger h dev stored) = dev /\
  console (new_Logger h dev stored)
  = (if hasWindow h
        && (getItemThrows h || unparsable stored)
     then [{| channel := WARN;
              line := "Failed to load logs from localStorage:" |}]
     else []).
Proof.
  unfold new_Logger, constructor, loadFromLocalStorage, startAutoSend,
    localStorage_getItem, JSON_parse. unfold_monad.
  destruct (hasWindow h); cbn -[slice]; [|done].
  destruct (getItemThrows h); cbn -[slice]; [done|].
  by destruct stored as [[| |logs]|].
Qed.

Lemma sublist_concat {A} (l1 l2 : list (list A)) :
  l1 `sublist_of` l2 -> concat l1 `sublist_of` concat l2.
Proof.
  induction 1 as [|x l1 l2 _ IH|x l1 l2 _ IH]; simpl.
  - done.
  - by apply sublist_app.
  - by apply sublist_inserts_l.
Qed.

Lemma concat_lookup_split {A} (reqs : list (list A)) i batch :
  reqs !! i = Some batch ->
  concat reqs = concat (take i reqs) ++ batch ++ concat (drop (S i) reqs) /\
  concat (delete i reqs) = concat (take i reqs) ++ concat (drop (S i) reqs).
Proof.
  intros Hi. split.
  - rewrite <- (take_drop_middle reqs i batch) at 1 by done.
    by rewrite concat_app, concat_cons.
  - by rewrite delete_take_drop, concat_app.
Qed.

Lemma subseteq_snoc_both {A} (l1 l2 L : list A) x :
  l1 ++ l2 ⊆ L -> l1 ++ l2 ++ [x] ⊆ L ++ [x].
Proof.
  intros Hsub y Hy. rewrite !elem_of_app in Hy. rewrite elem_of_app.
  destruct Hy as [Hy|[Hy|Hy]]; [left|left|by right];
    apply Hsub; rewrite elem_of_app; [by left|by right].
Qed.

(** ** Invariants of the queue over a session *)

(** The state after an event, known by its queue and its requests. *)
Ltac queue_after h ev s :=
  let Hq := fresh "Hq" in
  let s' := fresh "s'" in
  pose proof (step_queue h ev s) as Hq; cbv zeta in Hq;
  revert Hq; generalize (final (step h ev s)); intros s' Hq.

Ltac use_queue :=
  match goal with
  | Hq : (pendingLogs ?s', inflight ?s') = _ |- _ =>
      let H1 := fresh in
      let H2 := fresh in
      injection Hq as H1 H2; rewrite H1, H2; clear H1 H2
  end.

Lemma flushed_bounded h s :
  length (pendingLogs s) <= 100 ->
  Forall (fun body => length body <= 101) (inflight s) ->
  length (flushed h s).1 <= 100 /\
  Forall (fun body => length body <= 101) (flushed h s).2.
Proof.
  intros Hp Hi. unfold flushed.
  destruct (pendingLogs s) as [|e p] eqn:Hpend;
    [split; [simpl; lia|done]|].
  destruct (sendable h (e :: p)); cbn [fst snd].
  - split; [simpl; lia|]. apply Forall_app_2; [done|].
    constructor; [|constructor]. lia.
  - split; [|done]. rewrite length_take. lia.
Qed.

Lemma flushed_sublist h s :
  concat (flushed h s).2 ++ (flushed h s).1
    `sublist_of` concat (inflight s) ++ pendingLogs s.
Proof.
  unfold flushed. destruct (pendingLogs s) as [|e p]; [done|].
  destruct (sendable h (e :: p)); cbn [fst snd].
  - rewrite concat_app. simpl. by rewrite !app_nil_r.
  - apply sublist_app; [done|apply sublist_take].
Qed.

(** X1: in every session of a freshly constructed logger, the queue never
    holds more than 100 entries and no request carries more than 101. *)
Theorem queue_and_requests_bounded (h : Host) (dev : bool)
    (stored : option Text) (evs : list Event) :
  let s := run h evs (new_Logger h dev stored) in
  length (pendingLogs s) <= 100 /\
  Forall (fun body => length body <= 101) (inflight s).
Proof.
  induction evs as [|ev evs IH] using rev_ind; cbv zeta.
  - cbn [run foldl].
    destruct (new_Logger_queue h dev stored) as (-> & -> & _).
    split; [simpl; lia|constructor].
  - rewrite run_snoc. cbv zeta in IH.
    set (s := run h evs (new_Logger h dev stored)) in *.
    destruct IH as (IHp & IHi).
    queue_after h ev s.
    destruct ev as [c| | |i o].
    + destruct (loud (call_level c)); [|by use_queue].
      destruct (Nat.leb_spec 9 (length (pendingLogs s))) as [Hge|Hlt].
      * destruct (sendable h (pendingLogs s ++ [entryOf c])); use_queue.
        -- split; [simpl; lia|]. apply Forall_app_2; [done|].
           constructor; [|constructor]. rewrite length_app. simpl. lia.
        -- split; [|done]. rewrite length_take. lia.
      * use_queue. split; [|done]. rewrite length_app. simpl. lia.
    + destruct (flushed_bounded h s IHp IHi) as (Hf1 & Hf2).
      destruct (flushed h s) as [fp fi]. cbn [fst snd] in Hf1, Hf2.
      destruct (sendLogsTimer s); use_queue; done.
    + destruct (flushed_bounded h s IHp IHi) as (Hf1 & Hf2).
      destruct (flushed h s) as [fp fi]. cbn [fst snd] in Hf1, Hf2.
      destruct (unloadListener s); use_queue; done.
    + destruct (inflight s !! i) as [batch|]; use_queue;
        [|done].
      split; [|by apply Forall_delete].
      destruct (failed o); [|done]. rewrite length_take. lia.
Qed.

(** X2: whatever waits in the queue or travels in a request was logged in
    this session with level warn or error: entries of level debug or info
    and entries found in localStorage at start are never sent. *)
Theorem only_loud_entries_are_sent (h : Host) (dev : bool)
    (stored : option Text) (evs : list Event) (entry : LogEntry) :
  let s := run h evs (new_Logger h dev stored) in
  entry ∈ outstanding s ->
  entry ∈ logged evs /\ (level entry = WARN \/ level entry = ERROR).
Proof.
  cbv zeta. intros Hin.
  assert (Hsub : outstanding (run h evs (new_Logger h dev stored))
                 ⊆ loud_logged evs).
  { clear Hin. induction evs as [|ev evs IH] using rev_ind.
    - unfold outstanding. cbn [run foldl].
      destruct (new_Logger_queue h dev stored) as (-> & -> & _). done.
    - rewrite run_snoc, loud_logged_snoc.
      set (s := run h evs (new_Logger h dev stored)) in *.
      unfold outstanding in *.
      queue_after h ev s.
      destruct ev as [c| | |i o].
      + destruct (loud (call_level c));
          [|use_queue; by rewrite app_nil_r].
        destruct (9 <=? length (pendingLogs s))%nat;
          [destruct (sendable h (pendingLogs s ++ [entryOf c]))|];
          use_queue.
        * rewrite concat_app. simpl. rewrite !app_nil_r.
          by apply subseteq_snoc_both.
        * etrans; [|by apply subseteq_snoc_both].
          apply sublist_subseteq, sublist_app; [done|apply sublist_take].
        * by apply subseteq_snoc_both.
      + rewrite app_nil_r.
        pose proof (sublist_subseteq _ _ (flushed_sublist h s)) as Hf.
        destruct (flushed h s) as [fp fi]. cbn [fst snd] in Hf.
        destruct (sendLogsTimer s); use_queue; [by etrans|done].
      + rewrite app_nil_r.
        pose proof (sublist_subseteq _ _ (flushed_sublist h s)) as Hf.
        destruct (flushed h s) as [fp fi]. cbn [fst snd] in Hf.
        destruct (unloadListener s); use_queue; [by etrans|done].
      + rewrite app_nil_r.
        destruct (inflight s !! i) as [batch|] eqn:Hi; use_queue;
          [|done].
        destruct (concat_lookup_split (inflight s) i batch Hi) as (Hall & Hdel).
        rewrite Hdel. rewrite Hall in IH.
        intros x Hx. apply IH.
        rewrite !elem_of_app in Hx. rewrite !elem_of_app.
        destruct Hx as [[Hx|Hx]|Hx]; [tauto|tauto|].
        destruct (failed o); [|tauto].
        apply subseteq_take in Hx. rewrite elem_of_app in Hx. tauto. }
  apply Hsub in Hin. unfold loud_logged in Hin.
  apply list_elem_of_filter in Hin as (Hloud & Hlogged).
  split; [done|]. by apply loud_spec.
Qed.

Lemma only_loud_entries_are_sent_witness :
  entry_n WARN 2 ∈ logged [Call (numbered INFO 1); Call (numbered WARN 2)] /\
  (level (entry_n WARN 2) = WARN \/ level (entry_n WARN 2) = ERROR).
Proof.
  apply (only_loud_entries_are_sent browser false None
           [Call (numbered INFO 1); Call (numbered WARN 2)] (entry_n WARN 2)).
  vm_compute. constructor.
Defined.

(** X3: in a session where no request fails, the entries in flight followed
    by the queue are warn and error entries of the session in the order
    they were logged, none of them twice: they form a subsequence of the
    warn and error entries logged. *)
Theorem no_failure_keeps_order (h : Host) (dev : bool) (stored : option Text)
    (evs : list Event) :
  no_failure evs ->
  outstanding (run h evs (new_Logger h dev stored))
    `sublist_of` loud_logged evs.
Proof.
  induction evs as [|ev evs IH] using rev_ind; intros Hok.
  - unfold outstanding. cbn [run foldl].
    destruct (new_Logger_queue h dev stored) as (-> & -> & _). done.
  - unfold no_failure in Hok. apply Forall_app in Hok as (Hevs & Hev).
    apply Forall_inv in Hev. specialize (IH Hevs).
    rewrite run_snoc, loud_logged_snoc.
    set (s := run h evs (new_Logger h dev stored)) in *.
    unfold outstanding in *. queue_after h ev s.
    destruct ev as [c| | |i o].
    + destruct (loud (call_level c)); [|use_queue; by rewrite app_nil_r].
      destruct (9 <=? length (pendingLogs s))%nat;
        [destruct (sendable h (pendingLogs s ++ [entryOf c]))|];
        use_queue.
      * rewrite concat_app. simpl. rewrite !app_nil_r, app_assoc.
        by apply sublist_app.
      * etrans; [apply sublist_app; [done|apply sublist_take]|].
        rewrite app_assoc. by apply sublist_app.
      * rewrite app_assoc. by apply sublist_app.
    + rewrite app_nil_r. pose proof (flushed_sublist h s) as Hf.
      destruct (flushed h s) as [fp fi]. cbn [fst snd] in Hf.
      destruct (sendLogsTimer s); use_queue; [by etrans|done].
    + rewrite app_nil_r. pose proof (flushed_sublist h s) as Hf.
      destruct (flushed h s) as [fp fi]. cbn [fst snd] in Hf.
      destruct (unloadListener s); use_queue; [by etrans|done].
    + rewrite app_nil_r. rewrite Hev in Hq.
      destruct (inflight s !! i) as [batch|] eqn:Hi; use_queue; [|done].
      etrans; [|exact IH]. apply sublist_app; [|done].
      apply sublist_concat, sublist_delete.
Qed.

Lemma no_failure_keeps_order_witness :
  let evs := (Call <$> (numbered WARN <$> seq 1 12))
             ++ [TimerTick; Settled 0 (Response true);
                 Call (numbered ERROR 13)] in
  no_failure evs /\
  outstanding (run browser evs (new_Logger browser false None))
    `sublist_of` loud_logged evs.
Proof.
  intros evs.
  assert (Hok : no_failure evs) by (unfold no_failure; simpl; repeat constructor).
  split; [exact Hok|].
  exact (no_failure_keeps_order browser false None evs Hok).
Defined.

(** ** Retrying, sending on demand, the timer *)

(** X4: after a failed request for a non-empty batch, the queue starts with
    the entries of the failed batch, followed by the entries queued
    meanwhile, 100 entries at most.  The next flush sends exactly these as
    one request and leaves the queue empty when [fetch] is defined and
    every one of them can be serialised; otherwise no request leaves and
    they stay in the queue. *)
Theorem failed_batch_is_sent_again (h : Host) (o : FetchOutcome)
    (batch : list LogEntry) (s : Logger) :
  failed o = true -> batch <> [] ->
  let s1 := final (flushPendingLogs_resume o batch s) in
  let again := take 100 batch ++ take (100 - length batch) (pendingLogs s) in
  pendingLogs s1 = again /\
  flushPendingLogs h s1
  = Ret tt (if sendable h again
            then set_inflight (inflight s ++ [again]) (set_pendingLogs [] s)
            else set_pendingLogs again s).
Proof.
  intros Ho Hne s1 again. subst s1. rewrite resume_failed by done.
  cbn [final].
  assert (Hag : take 100 (batch ++ pendingLogs s) = again)
    by (subst again; by rewrite take_app).
  rewrite Hag. split; [done|].
  assert (Hne' : again <> [])
    by (subst again; destruct batch; [done|]; simpl; discriminate).
  destruct (sendable h again) eqn:Hs.
  - by rewrite flushPendingLogs_send.
  - rewrite flushPendingLogs_stuck; [|done|done].
    cbn [pendingLogs set_pendingLogs]. rewrite set_pendingLogs_twice.
    by rewrite <- Hag, take_take.
Qed.

Lemma failed_batch_is_sent_again_witness :
  flushPendingLogs browser
    (final (flushPendingLogs_resume NetworkError (entries_n WARN 1 10)
              (set_pendingLogs (entries_n ERROR 11 2) (blank false None))))
  = Ret tt (set_inflight [entries_n WARN 1 10 ++ entries_n ERROR 11 2]
              (blank false None)).
Proof.
  destruct (failed_batch_is_sent_again browser NetworkError
              (entries_n WARN 1 10)
              (set_pendingLogs (entries_n ERROR 11 2) (blank false None)))
    as (_ & Hflush); [reflexivity|discriminate|].
  rewrite Hflush. reflexivity.
Defined.

(** X5: [sendLogsToBackend] on an empty queue sends nothing and answers
    true.  On a non-empty queue that can be sent ([fetch] is defined and
    every entry can be serialised) it sends the whole queue as one request;
    if nothing else happens before that request settles, it answers true
    when the response is ok, the queue being empty, and false when the
    request fails, the queue then holding the first 100 entries of the
    batch.  On a non-empty queue that cannot be sent no request leaves, the
    queue keeps its first 100 entries and the answer is false. *)
Theorem sendLogsToBackend_answer (h : Host) (o : FetchOutcome) (s : Logger) :
  (pendingLogs s = [] ->
     sendLogsToBackend h s = Ret tt s /\
     sendLogsToBackend_resume s = Ret true s) /\
  (pendingLogs s <> [] -> sendable h (pendingLogs s) = true ->
     let s1 := final (sendLogsToBackend h s) in
     let s2 := final (step h (Settled (length (inflight s)) o) s1) in
     inflight s1 = inflight s ++ [pendingLogs s] /\
     inflight s2 = inflight s /\
     pendingLogs s2 = (if failed o then take 100 (pendingLogs s) else []) /\
     sendLogsToBackend_resume s2 = Ret (negb (failed o)) s2) /\
  (pendingLogs s <> [] -> sendable h (pendingLogs s) = false ->
     let s1 := final (sendLogsToBackend h s) in
     sendLogsToBackend h s
     = Ret tt (set_pendingLogs (take 100 (pendingLogs s)) s) /\
     sendLogsToBackend_resume s1 = Ret false s1).
Proof.
  split; [|split].
  - intros Hp. split; [by apply flushPendingLogs_empty|].
    unfold sendLogsToBackend_resume. unfold_monad. by rewrite Hp.
  - intros Hp Hsend s1 s2. unfold sendLogsToBackend in s1.
    assert (Hs1 : s1 = set_inflight (inflight s ++ [pendingLogs s])
                         (set_pendingLogs [] s)).
    { subst s1. by rewrite flushPendingLogs_send. }
    assert (Hq : (pendingLogs s2, inflight s2)
                 = (if failed o then take 100 (pendingLogs s) else [],
                    inflight s)).
    { subst s2. rewrite (step_queue h (Settled _ o) s1). rewrite Hs1.
      cbn [inflight pendingLogs set_inflight set_pendingLogs].
      rewrite lookup_app_r by lia. rewrite Nat.sub_diag.
      change ([pendingLogs s] !! 0) with (Some (pendingLogs s)). cbv iota beta.
      rewrite app_nil_r. f_equal.
      rewrite delete_take_drop, take_app_length.
      rewrite drop_app_ge by lia.
      replace (S (length (inflight s)) - length (inflight s)) with 1 by lia.
      simpl. by rewrite app_nil_r. }
    injection Hq as Hp2 Hi2.
    split; [by rewrite Hs1|]. split; [done|]. split; [done|].
    unfold sendLogsToBackend_resume. unfold_monad. rewrite Hp2.
    destruct (failed o); [|done].
    destruct (pendingLogs s); [done|]. done.
  - intros Hp Hsend s1. subst s1. unfold sendLogsToBackend.
    rewrite flushPendingLogs_stuck by done. split; [done|].
    unfold sendLogsToBackend_resume. unfold_monad.
    cbn [final pendingLogs set_pendingLogs].
    destruct (pendingLogs s); [done|]. done.
Qed.

Lemma sendLogsToBackend_answer_witness :
  let s := set_pendingLogs (entries_n WARN 1 3) (blank false None) in
  let stuck := set_pendingLogs [entryOf (cyclic WARN 1)] (blank false None) in
  sendLogsToBackend_resume (blank false None) = Ret true (blank false None) /\
  sendLogsToBackend_resume
    (final (step browser (Settled 0 (Response false))
              (final (sendLogsToBackend browser s))))
  = Ret false s /\
  sendLogsToBackend browser stuck = Ret tt stuck.
Proof.
  intros s stuck.
  destruct (sendLogsToBackend_answer browser (Response false)
              (blank false None)) as (Hempty & _).
  destruct (sendLogsToBackend_answer browser (Response false) s)
    as (_ & Hsend & _).
  destruct (sendLogsToBackend_answer browser (Response false) stuck)
    as (_ & _ & Hstuck).
  split; [|split].
  - apply Hempty. reflexivity.
  - destruct Hsend as (_ & _ & _ & Hans);
      [simpl; discriminate|reflexivity|].
    exact Hans.
  - destruct Hstuck as (Hans & _); [simpl; discriminate|reflexivity|].
    exact Hans.
Defined.

Lemma run_flags h evs s :
  sendLogsTimer (run h evs s) = sendLogsTimer s /\
  unloadListener (run h evs s) = unloadListener s /\
  isDevelopment (run h evs s) = isDevelopment s.
Proof.
  induction evs as [|ev evs IH] using rev_ind; [done|].
  rewrite run_snoc.
  destruct (step_flags h ev (run h evs s)) as (-> & -> & ->). exact IH.
Qed.

(** X6: in a session of a freshly constructed logger, when the host has a
    window, a timer tick or the unloading of the page flushes the queue,
    however short: a non-empty queue leaves as one request when [fetch] is
    defined and every entry can be serialised, and otherwise stays, cut to
    its first 100 entries, with no request sent.  Without a window neither
    was installed, and both leave the state as it is. *)
Theorem timer_and_unload_flush (h : Host) (dev : bool) (stored : option Text)
    (evs : list Event) :
  let s := run h evs (new_Logger h dev stored) in
  let s' := if sendable h (pendingLogs s)
            then set_inflight (inflight s ++ [pendingLogs s])
                   (set_pendingLogs [] s)
            else set_pendingLogs (take 100 (pendingLogs s)) s in
  (hasWindow h = false ->
     step h TimerTick s = Ret tt s /\ step h BeforeUnload s = Ret tt s) /\
  (hasWindow h = true -> pendingLogs s <> [] ->
     step h TimerTick s = Ret tt s' /\ step h BeforeUnload s = Ret tt s').
Proof.
  intros s s'.
  destruct (run_flags h evs (new_Logger h dev stored)) as (Ht & Hu & _).
  destruct (new_Logger_queue h dev stored) as (_ & _ & Ht0 & Hu0 & _).
  rewrite Ht0 in Ht. rewrite Hu0 in Hu. fold s in Ht, Hu.
  split.
  - intros Hw. cbn [step]. unfold_monad. by rewrite Ht, Hu, Hw.
  - intros Hw Hp. cbn [step]. unfold_monad. rewrite Ht, Hu, Hw.
    subst s'. destruct (sendable h (pendingLogs s)) eqn:Hs.
    + by rewrite flushPendingLogs_send.
    + by rewrite flushPendingLogs_stuck.
Qed.

Lemma timer_and_unload_flush_witness :
  let quiet := run server [Call (numbered WARN 1)]
                 (new_Logger server false None) in
  let page := run browser [Call (numbered WARN 1)]
                (new_Logger browser false None) in
  let stuck := run browser [Call (cyclic WARN 1)]
                 (new_Logger browser false None) in
  step server TimerTick quiet = Ret tt quiet /\
  step browser TimerTick page
  = Ret tt (set_inflight [[entry_n WARN 1]] (set_pendingLogs [] page)) /\
  step browser BeforeUnload stuck = Ret tt stuck.
Proof.
  intros quiet page stuck.
  destruct (timer_and_unload_flush server false None [Call (numbered WARN 1)])
    as (Hserver & _).
  destruct (timer_and_unload_flush browser false None [Call (numbered WARN 1)])
    as (_ & Hpage).
  destruct (timer_and_unload_flush browser false None [Call (cyclic WARN 1)])
    as (_ & Hstuck).
  split; [|split].
  - apply Hserver. reflexivity.
  - apply Hpage; [reflexivity|]. vm_compute. discriminate.
  - apply Hstuck; [reflexivity|]. vm_compute. discriminate.
Defined.

(** ** The console *)

Lemma persist_console h entry s :
  let s' := final (persistToLocalStorage h entry s) in
  isDevelopment s' = isDevelopment s /\
  console s'
  = console s ++ (if hasWindow h && persist_fails h entry (localStorage s)
                  then [persist_warning] else []).
Proof.
  cbv zeta. rewrite persist_eq. cbn [final].
  destruct (hasWindow h); cbn [negb andb]; [|by rewrite app_nil_r].
  destruct (persist_fails h entry (localStorage s)); [done|].
  by rewrite app_nil_r.
Qed.

Lemma enqueued_console h entry s : console (enqueued h entry s) = console s.
Proof.
  unfold enqueued.
  by destruct (9 <=? length (pendingLogs s))%nat,
    (sendable h (pendingLogs s ++ [entry])).
Qed.

Lemma call_console h c s :
  let s' := final (step h (Call c) s) in
  let s1 := set_logHistory (pushed (logHistory s) (entryOf c)) s in
  console s'
  = (if loud (call_level c)
     then console (final (persistToLocalStorage h (entryOf c) s1))
     else console s)
    ++ console_output (isDevelopment s) (call_level c) (line (console_line c)).
Proof.
  cbn [step]. rewrite log_eq. cbn [final console set_console].
  rewrite addToHistory_eq. cbn [final level]. cbv zeta. fold (entryOf c).
  destruct (loud (call_level c)); [|done].
  rewrite enqueued_console. f_equal.
  destruct (enqueued_frame h (entryOf c)
    (final (persistToLocalStorage h (entryOf c)
       (set_logHistory (pushed (logHistory s) (entryOf c)) s))))
    as (_ & _ & ->).
  by destruct (persist_console h (entryOf c)
    (set_logHistory (pushed (logHistory s) (entryOf c)) s)) as (-> & _).
Qed.

Lemma persist_fails_not h entry o :
  storage_works h -> readable o -> serialisable entry = true ->
  persist_fails h entry o = false.
Proof.
  intros (_ & Hget & Hset) Hread Hser. unfold persist_fails.
  rewrite Hget, Hser, Hset. cbn [negb orb].
  by destruct o as [[| |logs]|].
Qed.

(** X7: a debug or info call writes its formatted line to the console, on
    the channel of its level, in development only; in production it writes
    nothing.  A warn or error call always ends by writing its line on its
    channel, in development and in production.  The only thing that can
    come before it is the one warning of [persistToLocalStorage]; it is
    printed exactly when there is a window and the read of localStorage
    throws, the stored text does not parse, the data of the entry cannot
    be serialised, or the write throws.  So there is none without a window,
    and none when reads and writes succeed, the stored text can be read
    and the data can be serialised. *)
Theorem console_dispatch (h : Host) (c : LogCall) (s : Logger) :
  let s' := final (step h (Call c) s) in
  let fails := getItemThrows h || unparsable (localStorage s)
               || negb (serialisable (entryOf c))
               || setItemThrows h
                    (persisted_text h (entryOf c) (localStorage s)) in
  (call_level c = DEBUG \/ call_level c = INFO ->
     console s'
     = console s ++ (if isDevelopment s then [console_line c] else [])) /\
  (call_level c = WARN \/ call_level c = ERROR ->
     last (console s') = Some (console_line c) /\
     console s'
     = console s
       ++ (if hasWindow h && fails then [persist_warning] else [])
       ++ [console_line c] /\
     (storage_works h -> readable (localStorage s) ->
      serialisable (entryOf c) = true ->
        console s' = console s ++ [console_line c]) /\
     (hasWindow h = false -> console s' = console s ++ [console_line c])).
Proof.
  intros s' fails. pose proof (call_console h c s) as Hc.
  cbv zeta in Hc. fold s' in Hc. split.
  - intros Hlv. rewrite Hc. apply quiet_spec in Hlv as Hq. rewrite Hq.
    unfold console_output, console_line.
    by destruct Hlv as [-> | ->], (isDevelopment s).
  - intros Hlv. apply loud_spec in Hlv as Hl. rewrite Hl in Hc.
    assert (Hout : console_output (isDevelopment s) (call_level c)
                     (line (console_line c)) = [console_line c]).
    { unfold console_output, console_line. by destruct Hlv as [-> | ->]. }
    rewrite Hout in Hc.
    destruct (persist_console h (entryOf c)
      (set_logHistory (pushed (logHistory s) (entryOf c)) s)) as (_ & Hp).
    rewrite Hp in Hc. cbn [console localStorage set_logHistory] in Hc.
    fold (persist_fails h (entryOf c) (localStorage s)) in fails.
    rewrite <- app_assoc in Hc.
    split; [by rewrite Hc, app_assoc, last_snoc|].
    split; [exact Hc|]. split.
    + intros Hworks Hread Hser. rewrite Hc. subst fails.
      rewrite persist_fails_not by done. by rewrite andb_false_r.
    + intros Hw. rewrite Hc. by rewrite Hw.
Qed.

Lemma console_dispatch_witness :
  let s := new_Logger browser false None in
  console (final (step browser (Call (numbered INFO 1)) s)) = [] /\
  console (final (step browser (Call (numbered ERROR 2)) s))
  = [console_line (numbered ERROR 2)] /\
  console (final (step browser (Call (cyclic WARN 3)) s))
  = [persist_warning; console_line (cyclic WARN 3)].
Proof.
  intros s.
  destruct (console_dispatch browser (numbered INFO 1) s) as (Hquiet & _).
  destruct (console_dispatch browser (numbered ERROR 2) s) as (_ & Hloud).
  destruct (console_dispatch browser (cyclic WARN 3) s) as (_ & Hcyclic).
  split; [|split].
  - rewrite Hquiet; [reflexivity|by right].
  - destruct Hloud as (_ & _ & Hworks & _); [by right|].
    rewrite Hworks; [reflexivity|repeat split|discriminate|reflexivity].
  - destruct Hcyclic as (_ & Hline & _); [by left|].
    rewrite Hline. reflexivity.
Defined.

(** ** Construction and reloading *)

Lemma newest_newest_le {A} n m (l : list A) :
  n <= m -> newest n (newest m l) = newest n l.
Proof.
  intros Hle. unfold newest. rewrite length_drop, drop_drop. f_equal. lia.
Qed.

(** X8: construction never throws.  The new logger has an empty queue and
    no request in flight; its history is the last 100 entries read from
    localStorage, and is empty when there is no window, when localStorage
    cannot be read or when the stored text does not parse, the last two
    leaving one warning on the console; the stored item is not touched; the
    timer and the unload listener are installed exactly when there is a
    window. *)
Theorem construction (h : Host) (dev : bool) (stored : option Text) :
  let s := new_Logger h dev stored in
  returns (constructor h (blank dev stored)) /\
  logHistory s
  = (if hasWindow h && negb (getItemThrows h)
     then newest 100 (stored_logs stored) else []) /\
  length (logHistory s) <= 100 /\
  localStorage s = stored /\
  pendingLogs s = [] /\ inflight s = [] /\
  sendLogsTimer s = hasWindow h /\ unloadListener s = hasWindow h /\
  console s
  = (if hasWindow h && (getItemThrows h || unparsable stored)
     then [{| channel := WARN;
              line := "Failed to load logs from localStorage:" |}]
     else []).
Proof.
  intros s.
  destruct (new_Logger_queue h dev stored) as (Hp & Hi & Ht & Hu & _ & Hc).
  split; [|split; [|split; [|split]]].
  - unfold constructor, loadFromLocalStorage, startAutoSend,
      localStorage_getItem, JSON_parse. unfold_monad.
    destruct (hasWindow h); cbn -[slice]; [|done].
    destruct (getItemThrows h); cbn -[slice]; [done|].
    by destruct stored as [[| |logs]|].
  - apply new_Logger_history.
  - subst s. rewrite new_Logger_history.
    destruct (hasWindow h && negb (getItemThrows h)); [|simpl; lia].
    rewrite length_newest. change maxHistorySize with 100. lia.
  - apply new_Logger_store.
  - done.
Qed.

(** X9: what a reload finds.  When localStorage works and held at most 500
    entries at the start of a session, a logger constructed on what the
    session leaves in localStorage has for history the last 100 of the
    entries stored at the start followed by the warn and error entries of
    the session whose data can be serialised, enriched and as JSON gives
    them back (an [Error] comes back as the object of its own enumerable
    properties).  The debug and info entries of the session are not there,
    nor are the warn and error entries whose data [JSON.stringify]
    rejects. *)
Theorem history_after_reload (h : Host) (dev dev' : bool)
    (stored : option Text) (evs : list Event) :
  storage_works h -> readable stored ->
  length (stored_logs stored) <= 500 ->
  let kept := localStorage (run h evs (new_Logger h dev stored)) in
  logHistory (new_Logger h dev' kept)
  = newest 100 (stored_logs stored
                ++ (jsonEntry <$> (enrich h <$> storable_logged evs))).
Proof.
  intros Hworks Hread Hlen kept. subst kept.
  rewrite new_Logger_history.
  destruct Hworks as (Hw & Hget & Hset). rewrite Hw, Hget. cbn [andb negb].
  rewrite run_store_content; rewrite ?new_Logger_store; try done.
  apply (newest_newest_le 100 500). lia.
Qed.

Lemma history_after_reload_witness :
  let evs := [Call (numbered WARN 1); Call (numbered INFO 2);
              Call (cyclic ERROR 3); Call (numbered ERROR 4)] in
  logHistory
    (new_Logger browser true
       (localStorage (run browser evs (new_Logger browser false None))))
  = [enrich browser (entry_n WARN 1); enrich browser (entry_n ERROR 4)].
Proof.
  intros evs.
  rewrite (history_after_reload browser false true None evs);
    [reflexivity|repeat split|discriminate|simpl; lia].
Defined.

(** ** A stored text that does not parse *)

Lemma persist_unparsable h entry s :
  localStorage s = Some BadText ->
  localStorage (final (persistToLocalStorage h entry s)) = Some BadText.
Proof.
  intros Hbad.
  unfold persistToLocalStorage, localStorage_getItem, localStorage_setItem,
    JSON_parse. unfold_monad.
  destruct (hasWindow h); cbn -[Nat.ltb slice]; [|done].
  destruct (getItemThrows h); [done|]. by rewrite Hbad.
Qed.

(** X10: logging never repairs a stored text that does not parse: through
    any session the text stays as it is, no entry is persisted, and
    [getPersistedLogs] keeps answering with the empty list. *)
Theorem unparsable_store_is_kept (h : Host) (evs : list Event) (s : Logger)
    (lv : option LogLevel) :
  localStorage s = Some BadText ->
  localStorage (run h evs s) = Some BadText /\
  exists s', getPersistedLogs h lv (run h evs s) = Ret [] s'.
Proof.
  intros Hbad.
  assert (Hkept : localStorage (run h evs s) = Some BadText).
  { induction evs as [|ev evs IH] using rev_ind; [done|].
    rewrite run_snoc, step_store.
    destruct ev as [c| | |]; try done.
    destruct (loud (call_level c)); [|done]. by apply persist_unparsable. }
  split; [done|].
  unfold_storage. destruct (hasWindow h); cbn; [|by eauto].
  destruct (getItemThrows h); [by eauto|]. rewrite Hkept. cbn. by eauto.
Qed.

Lemma unparsable_store_is_kept_witness :
  localStorage
    (run browser [Call (numbered ERROR 1); Call (numbered WARN 2)]
       (new_Logger browser false (Some BadText)))
  = Some BadText.
Proof.
  apply (unparsable_store_is_kept browser
           [Call (numbered ERROR 1); Call (numbered WARN 2)]
           (new_Logger browser false (Some BadText)) None).
  reflexivity.
Defined.

(** ** Reading, clearing and downloading the stored entries *)

(** X11: [getPersistedLogs] answers with the entries read from localStorage
    when there is a window and the read succeeds, and with the empty list
    otherwise (no window, a read that throws, no item, an empty or
    unparsable text); with a level it answers with the entries of that level
    among them, in the same order; it changes neither the stored item nor
    the history nor the queue. *)
Theorem getPersistedLogs_filter (h : Host) (l : LogLevel) (s : Logger) :
  let logs := if hasWindow h && negb (getItemThrows h)
              then stored_logs (localStorage s) else [] in
  exists s',
    getPersistedLogs h None s = Ret logs s' /\
    getPersistedLogs h (Some l) s = Ret (of_level l logs) s' /\
    localStorage s' = localStorage s /\ logHistory s' = logHistory s /\
    pendingLogs s' = pendingLogs s /\ inflight s' = inflight s.
Proof.
  unfold_storage.
  destruct (hasWindow h), (getItemThrows h),
    (localStorage s) as [[| |logs]|] eqn:Hst;
    cbn; rewrite ?Hst; eexists; (split; [reflexivity|]); done.
Qed.

(** X12: when localStorage works, [clearPersistedLogs] removes the stored
    item, even one that does not parse, and touches neither the history nor
    the queue; [getPersistedLogs] then answers with the empty list, and the
    next entry persisted is alone in the stored list.  An entry whose data
    cannot be serialised is not persisted, and the list stays empty. *)
Theorem clear_starts_afresh (h : Host) (entry : LogEntry) (s : Logger)
    (lv : option LogLevel) :
  storage_works h -> removeItemThrows h = false ->
  let s1 := final (clearPersistedLogs h s) in
  clearPersistedLogs h s = Ret tt (set_localStorage None s) /\
  getPersistedLogs h lv s1 = Ret [] s1 /\
  stored_logs (localStorage (final (persistToLocalStorage h entry s1)))
  = (if serialisable entry then [jsonEntry (enrich h entry)] else []).
Proof.
  intros Hworks Hrm s1.
  assert (Hclear : clearPersistedLogs h s = Ret tt (set_localStorage None s)).
  { destruct Hworks as (Hw & _). unfold_storage. by rewrite Hw, Hrm. }
  subst s1. rewrite Hclear. cbn [final]. split; [done|]. split.
  - rewrite getPersistedLogs_works by done. by destruct lv.
  - destruct (serialisable entry) eqn:Hser.
    + rewrite persist_works by done.
      cbn [final localStorage set_localStorage].
      by rewrite stored_logs_persisted.
    + by rewrite persist_rejected.
Qed.

Lemma clear_starts_afresh_witness :
  let s := set_localStorage (Some BadText) (blank false None) in
  clearPersistedLogs browser s = Ret tt (blank false None) /\
  stored_logs
    (localStorage
       (final (persistToLocalStorage browser (entry_n WARN 1)
                 (final (clearPersistedLogs browser s)))))
  = [enrich browser (entry_n WARN 1)].
Proof.
  intros s.
  destruct (clear_starts_afresh browser (entry_n WARN 1) s None)
    as (Hclear & _ & Hnext); [repeat split|reflexivity|].
  split; [exact Hclear|exact Hnext].
Defined.

Lemma slice_from_index {A} (k : nat) (l : list A) :
  slice (Z.of_nat k) None l = drop k l.
Proof.
  unfold slice, relIndex.
  destruct (Z.ltb_spec (Z.of_nat k) 0) as [|_]; [lia|].
  destruct (Nat.le_gt_cases k (length l)) as [Hle|Hgt].
  - rewrite Z.min_l by lia. rewrite Nat2Z.id.
    apply take_ge. rewrite length_drop. lia.
  - rewrite Z.min_r by lia. rewrite Z.sub_diag, Nat2Z.id.
    simpl. by rewrite !drop_ge by lia.
Qed.

(** X13: a negative limit is not refused: [getHistory] then drops the
    first [-limit] entries of the filtered list and returns the rest, so it
    returns nothing when the list has no more than [-limit] entries. *)
Theorem getHistory_negative_limit (s : Logger) (lv : option LogLevel)
    (limit : Z) :
  (limit < 0)%Z ->
  let filtered := match lv with
                  | Some l => of_level l (logHistory s)
                  | None => logHistory s
                  end in
  getHistory lv (Some limit) s = Ret (drop (Z.to_nat (- limit)) filtered) s /\
  (length filtered <= Z.to_nat (- limit) ->
   getHistory lv (Some limit) s = Ret [] s).
Proof.
  intros Hneg filtered.
  assert (Heq : getHistory lv (Some limit) s
                = Ret (drop (Z.to_nat (- limit)) filtered) s).
  { rewrite getHistory_eq. cbn [truthy_number from_option id].
    destruct (Z.eqb_spec limit 0) as [|_]; [lia|]. cbn [negb]. fold filtered.
    rewrite <- (Z2Nat.id (- limit)) at 1 by lia.
    by rewrite slice_from_index. }
  split; [done|]. intros Hlen. rewrite Heq. by rewrite drop_ge.
Qed.

Lemma getHistory_negative_limit_witness :
  let s := set_logHistory five_errors_three_warnings (blank false None) in
  getHistory (Some ERROR) (Some (-2)%Z) s
  = Ret [entry_n ERROR 4; entry_n ERROR 6; entry_n ERROR 8] s.
Proof.
  intros s.
  destruct (getHistory_negative_limit s (Some ERROR) (-2)) as (Hq & _);
    [lia|].
  rewrite Hq. vm_compute. reflexivity.
Defined.

Lemma beforeT_date date time :
  no_T date -> beforeT (date +:+ String "T" time) = date.
Proof.
  unfold no_T. induction date as [|c date IH]; intros Hno; simpl.
  - done.
  - apply Forall_cons in Hno as (Hc & Hno).
    destruct (Ascii.eqb_spec c "T"); [done|]. by rewrite IH.
Qed.

(** X14: with a window, [downloadPersistedLogs] offers exactly one file,
    named [frontend-logs-<date>.json] where the date is what precedes the
    [T] of the current ISO time, holding the entries that [getPersistedLogs]
    returns for the level; the stored item, the history and the queue are
    left as they were, and a store that cannot be read gives a file with the
    empty list. *)
Theorem download_offers_one_file (h : Host) (date time : string)
    (lv : option LogLevel) (s : Logger) :
  hasWindow h = true -> no_T date ->
  let s' := final (downloadPersistedLogs h (date +:+ String "T" time) lv s) in
  let read := if getItemThrows h then [] else stored_logs (localStorage s) in
  let logs := match lv with Some l => of_level l read | None => read end in
  downloads s'
  = downloads s ++ [("frontend-logs-" +:+ date +:+ ".json", JsonText logs)] /\
  localStorage s' = localStorage s /\ logHistory s' = logHistory s /\
  pendingLogs s' = pendingLogs s.
Proof.
  intros Hw Hno. cbv zeta.
  rewrite downloadPersistedLogs_eq, Hw, beforeT_date by done.
  cbn [final downloads localStorage logHistory pendingLogs set_downloads].
  destruct (after_read_frame h s) as (-> & -> & -> & _ & ->).
  split; [|done]. unfold persisted_read. rewrite Hw. cbn [andb].
  by destruct (getItemThrows h).
Qed.

Lemma download_offers_one_file_witness :
  let s := set_localStorage
             (Some (JsonText [entry_n WARN 1; entry_n ERROR 2]))
             (blank false None) in
  downloads
    (final (downloadPersistedLogs browser "2025-03-04T10:20:30.000Z"
              (Some ERROR) s))
  = [("frontend-logs-2025-03-04.json", JsonText [entry_n ERROR 2])].
Proof.
  intros s.
  destruct (download_offers_one_file browser "2025-03-04" "10:20:30.000Z"
              (Some ERROR) s) as (Hfile & _).
  - reflexivity.
  - unfold no_T. simpl. repeat constructor; discriminate.
  - exact Hfile.
Defined.

(** ** The convenience methods *)

Lemma call_untouched h c s :
  loud (call_level c) = false ->
  same_store_and_queue s (final (step h (Call c) s)).
Proof.
  intros Hq. unfold same_store_and_queue.
  pose proof (call_queue h c s) as Hcq. cbv zeta in Hcq. rewrite Hq in Hcq.
  injection Hcq as Hp Hi.
  split; [by rewrite step_store, Hq|]. split; [exact Hp|exact Hi].
Qed.

Lemma last_pushed history entry : last (pushed history entry) = Some entry.
Proof.
  unfold pushed.
  destruct (Nat.ltb_spec maxHistorySize (length (history ++ [entry])))
    as [Hlt|_]; [|apply last_snoc].
  rewrite length_app in Hlt. simpl in Hlt.
  destruct history as [|e history]; [simpl in Hlt; cbv in Hlt; lia|].
  simpl. apply last_snoc.
Qed.

(** X15: the helpers for API requests, user actions, business operations
    and component lifecycles log at level info or debug: they leave the
    stored item, the queue and the requests in flight as they were.  The
    helper for API errors logs at level error: its entry, tagged
    [API_ERROR], is put in the queue; when that makes ten entries or more,
    it is sent with the queue if [fetch] is defined and every entry can be
    serialised, and otherwise stays in the queue with them, cut to 100
    entries, no request being sent. *)
Theorem helpers_route_by_level (h : Host) (t0 t1 method address act entity
    name : string) (lifecycle : Lifecycle) (entityId : option EntityId)
    (d : option Payload) (comp : option string) (s : Logger) :
  same_store_and_queue s
    (final (logApiRequest h t0 t1 method address d comp s)) /\
  same_store_and_queue s (final (logUserAction h t0 t1 act d comp s)) /\
  same_store_and_queue s
    (final (logBusinessLogic h t0 t1 act entity entityId d comp s)) /\
  same_store_and_queue s
    (final (logComponentLifecycle h t0 t1 name lifecycle d s)) /\
  (let s' := final (logApiError h t0 t1 method address d comp s) in
   let entry := {| level := ERROR;
                   message := "API error: " +:+ method +:+ " " +:+ address;
                   timestamp := t1; data := d; component := comp;
                   action := Some "API_ERROR";
                   userAgent := None; url := None; stack := None |} in
   (length (pendingLogs s) < 9 ->
      pendingLogs s' = pendingLogs s ++ [entry] /\ inflight s' = inflight s) /\
   (9 <= length (pendingLogs s) ->
    sendable h (pendingLogs s ++ [entry]) = true ->
      pendingLogs s' = [] /\
      inflight s' = inflight s ++ [pendingLogs s ++ [entry]]) /\
   (9 <= length (pendingLogs s) ->
    sendable h (pendingLogs s ++ [entry]) = false ->
      pendingLogs s' = take 100 (pendingLogs s ++ [entry]) /\
      inflight s' = inflight s)).
Proof.
  split; [|split; [|split; [|split]]].
  - apply (call_untouched h
      {| call_clock := (t0, t1); call_level := INFO;
         call_message := "API request: " +:+ method +:+ " " +:+ address;
         call_data := d; call_component := comp;
         call_action := Some "API_REQUEST" |}). done.
  - apply (call_untouched h
      {| call_clock := (t0, t1); call_level := INFO;
         call_message := "👤 User action: " +:+ act;
         call_data := d; call_component := comp;
         call_action := Some "USER_ACTION" |}). done.
  - apply (call_untouched h
      {| call_clock := (t0, t1); call_level := INFO;
         call_message :=
           if truthy_id entityId
           then act +:+ " " +:+ entity +:+ " (id=" +:+ id_text entityId +:+ ")"
           else act +:+ " " +:+ entity;
         call_data := d; call_component := comp;
         call_action := Some "BUSINESS_LOGIC" |}). done.
  - apply (call_untouched h
      {| call_clock := (t0, t1); call_level := DEBUG;
         call_message :=
           "Component " +:+ lifecycle_name lifecycle +:+ ": " +:+ name;
         call_data := d; call_component := Some name;
         call_action := Some match lifecycle with
                             | mount => "MOUNT"
                             | unmount => "UNMOUNT"
                             | update => "UPDATE"
                             end |}). done.
  - cbv zeta.
    pose proof (call_queue h
      {| call_clock := (t0, t1); call_level := ERROR;
         call_message := "API error: " +:+ method +:+ " " +:+ address;
         call_data := d; call_component := comp;
         call_action := Some "API_ERROR" |} s) as Hq.
    cbv zeta in Hq. cbn [call_level loud] in Hq.
    change (loud ERROR) with true in Hq. cbv iota in Hq.
    unfold entryOf in Hq.
    cbn [call_clock call_level call_message call_data call_component
         call_action snd] in Hq.
    split; [|split]; intros Hlen.
    + destruct (Nat.leb_spec 9 (length (pendingLogs s))); [lia|].
      injection Hq as Hp Hi. split; [exact Hp|exact Hi].
    + intros Hsend.
      destruct (Nat.leb_spec 9 (length (pendingLogs s))); [|lia].
      rewrite Hsend in Hq.
      injection Hq as Hp Hi. split; [exact Hp|exact Hi].
    + intros Hsend.
      destruct (Nat.leb_spec 9 (length (pendingLogs s))); [|lia].
      rewrite Hsend in Hq.
      injection Hq as Hp Hi. split; [exact Hp|exact Hi].
Qed.

Lemma helpers_route_by_level_witness :
  let s := blank false None in
  pendingLogs
    (final (logApiError browser "t0" "t1" "GET" "/api/trails" None None s))
  = [{| level := ERROR; message := "API error: GET /api/trails";
        timestamp := "t1"; data := None; component := None;
        action := Some "API_ERROR";
        userAgent := None; url := None; stack := None |}].
Proof.
  intros s.
  destruct (helpers_route_by_level browser "t0" "t1" "GET" "/api/trails"
              "" "" "" mount None None None s)
    as (_ & _ & _ & _ & Hbelow & _ & _).
  destruct Hbelow as (Hp & _); [simpl; lia|]. exact Hp.
Defined.

(** X16: [logBusinessLogic] appends to the history an info entry tagged
    [BUSINESS_LOGIC] whose message is the action and the entity followed by
    [(id=...)], with the id as the template prints it: a string as it is,
    an integer below 2^53 in absolute value in decimal.  The id is left out
    not only when it is missing but also when it is the number 0, [NaN] or
    the empty string. *)
Theorem logBusinessLogic_message (h : Host) (t0 t1 act entity : string)
    (entityId : option EntityId) (d : option Payload) (comp : option string)
    (s : Logger) :
  let s' := final (logBusinessLogic h t0 t1 act entity entityId d comp s) in
  exists entry,
    last (logHistory s') = Some entry /\
    level entry = INFO /\ action entry = Some "BUSINESS_LOGIC" /\
    (entityId = None
     \/ (exists n, entityId = Some (IdNumber (Exact n)) /\ int_value n = 0%Z)
     \/ entityId = Some (IdNumber NaN) \/ entityId = Some (IdString "") ->
       message entry = act +:+ " " +:+ entity) /\
    (forall n, entityId = Some (IdNumber (Exact n)) -> int_value n <> 0%Z ->
       message entry
       = act +:+ " " +:+ entity +:+ " (id=" +:+ pretty (int_value n)
         +:+ ")") /\
    (forall text, entityId = Some (IdNumber (OtherNumber text)) ->
       message entry = act +:+ " " +:+ entity +:+ " (id=" +:+ text +:+ ")") /\
    (forall t, entityId = Some (IdString t) -> t <> "" ->
       message entry = act +:+ " " +:+ entity +:+ " (id=" +:+ t +:+ ")").
Proof.
  cbv zeta. eexists. split.
  - pose proof (step_history h (Call
      {| call_clock := (t0, t1); call_level := INFO;
         call_message :=
           if truthy_id entityId
           then act +:+ " " +:+ entity +:+ " (id=" +:+ id_text entityId +:+ ")"
           else act +:+ " " +:+ entity;
         call_data := d; call_component := comp;
         call_action := Some "BUSINESS_LOGIC" |}) s) as Hh.
    cbn [step] in Hh. unfold logBusinessLogic, info.
    cbn [call_clock call_level call_message call_data call_component
         call_action fst snd] in Hh.
    rewrite Hh. apply last_pushed.
  - cbn [entryOf level action message call_level call_action call_message].
    split; [done|]. split; [done|]. split; [|split; [|split]].
    + intros [-> | [(n & -> & Hn) | [-> | ->]]]; try done.
      cbn [truthy_id]. by rewrite Hn.
    + intros n -> Hn. cbn [truthy_id id_text].
      by destruct (Z.eqb_spec (int_value n) 0).
    + by intros text ->.
    + intros t -> Ht. cbn [truthy_id id_text].
      by destruct (String.eqb_spec t "").
Qed.

Lemma logBusinessLogic_message_witness :
  exists entry,
    last (logHistory
            (final (logBusinessLogic browser "t0" "t1" "create" "trail"
                      (Some (IdNumber (Exact safe_zero))) None None
                      (blank false None))))
    = Some entry /\
    message entry = "create trail".
Proof.
  destruct (logBusinessLogic_message browser "t0" "t1" "create" "trail"
              (Some (IdNumber (Exact safe_zero))) None None
              (blank false None))
    as (entry & Hlast & _ & _ & Hfalsy & _).
  exists entry. split; [exact Hlast|].
  apply Hfalsy. right. left. by exists safe_zero.
Defined.

Lemma string_app_assoc (a b c : string) : (a +:+ b) +:+ c = a +:+ b +:+ c.
Proof.
  induction a as [|x a IH]; [done|].
  change (String x ((a +:+ b) +:+ c) = String x (a +:+ b +:+ c)).
  by rewrite IH.
Qed.

(** X17: the formatted line is the glyph of the level, the time, the
    component in brackets, the action in brackets and the message, separated
    by single spaces; a missing component or action leaves its place empty
    between the spaces, and an empty string counts as missing. *)
Theorem formatMessage_shape (now msg comp act : string) (lv : LogLevel)
    (o : option string) :
  comp <> "" -> act <> "" ->
  formatMessage now lv msg (Some comp) (Some act)
  = getEmoji lv +:+ " " +:+ now +:+ " [" +:+ comp +:+ "] [" +:+ act +:+ "] "
    +:+ msg /\
  formatMessage now lv msg None None
  = getEmoji lv +:+ " " +:+ now +:+ "   " +:+ msg /\
  formatMessage now lv msg (Some "") o = formatMessage now lv msg None o /\
  formatMessage now lv msg o (Some "") = formatMessage now lv msg o None.
Proof.
  intros Hc Ha. unfold formatMessage. cbn [truthy_string from_option id].
  destruct (String.eqb_spec comp "") as [|_]; [done|].
  destruct (String.eqb_spec act "") as [|_]; [done|].
  cbn [negb]. repeat split.
  rewrite !string_app_assoc. reflexivity.
Qed.

Lemma formatMessage_shape_witness :
  formatMessage "2025-01-01T00:00:00.000Z" WARN "slow tile" (Some "Map")
    (Some "LOAD")
  = "⚠️ 2025-01-01T00:00:00.000Z [Map] [LOAD] slow tile".
Proof.
  destruct (formatMessage_shape "2025-01-01T00:00:00.000Z" "slow tile"
              "Map" "LOAD" WARN None) as (Hfull & _); [done|done|].
  rewrite Hfull. reflexivity.
Defined.

(** X18: [clearHistory] empties the history and nothing else; in the
    session that follows, the history holds the last 100 entries logged
    since, and none from before. *)
Theorem clearHistory_then_session (h : Host) (evs : list Event) (s : Logger) :
  clearHistory s = Ret tt (set_logHistory [] s) /\
  logHistory (run h evs (final (clearHistory s))) = newest 100 (logged evs).
Proof.
  split; [done|]. cbn [clearHistory final]. unfold clearHistory, modify.
  cbn [final]. rewrite run_history by (simpl; lia). done.
Qed.
